(** * infomapmex: the MATLAB MEX adapter of the Infomap clustering engine

    A shallow embedding of [src/infomapmex.cpp]: the argument parser
    [parse_args], the classification of a triplet (edge list) input and the
    construction of the edge vectors inside [mexFunction], and the copy of the
    engine's leaves into the membership vector.

    The host runtime (the [mx*] accessors), the graph helper [GraphC] and the
    Infomap engine are collaborators of the adapter: the first is a record of
    the values its accessors return, the other two are together the variable
    of a section. *)

From Stdlib Require Import ZArith List String Ascii Bool Lia.
From Stdlib Require Import SpecFloat DecimalString.
From Stdlib Require DecimalPos DecimalZ.
From stdpp Require Import base list.
Import ListNotations.

Local Open Scope Z_scope.

(** ** C++ [double]

    IEEE 754 binary64 as the Standard Library specifies it ([spec_float] at
    precision 53 and maximal exponent 1024), with the comparisons and the
    subtraction the adapter uses.  A NaN compares false with everything. *)

Module Double.

Definition prec : Z := 53.
Definition emax : Z := 1024.

Definition double : Type := spec_float.

Definition ltb (x y : double) : bool := SFltb x y.
Definition gtb (x y : double) : bool := SFltb y x.
Definition geb (x y : double) : bool := SFleb y x.

Definition sub (x y : double) : double := SFsub prec emax x y.

(** Conversion of an integer ([int], [unsigned int]) to [double]; exact
    below 2^53. *)
Definition of_Z (z : Z) : double := binary_normalize prec emax z 0 false.

Definition zero : double := S754_zero false.
Definition one : double := of_Z 1.
Definition nan : double := S754_nan.

(** The double nearest to [m * 2^e]. *)
Definition of_binary (m e : Z) : double := binary_normalize prec emax m e false.


Definition is_nan (x : double) : bool :=
  match x with
  | S754_nan => true
  | _ => false
  end.

(** *** [std::to_string(double)]

    The C++ standard defines it as [sprintf] with the format ["%f"]: an
    optional sign, the integer digits, a point and six fractional digits;
    the value is rounded to the sixth decimal (to nearest, ties to even, on
    the exact binary value, as glibc does).  Infinities print as [inf];
    a NaN prints as [nan] ([spec_float] keeps no sign for a NaN: glibc
    prints a NaN whose sign bit is set as [-nan], so the text given here is
    that of a NaN with a clear sign bit). *)

Definition digit (d : Z) : ascii :=
  match d with
  | 0 => "0" | 1 => "1" | 2 => "2" | 3 => "3" | 4 => "4"
  | 5 => "5" | 6 => "6" | 7 => "7" | 8 => "8" | _ => "9"
  end%char.

(** The [n] low-order decimal digits of [q], most significant first. *)
Fixpoint fixed_digits (n : nat) (q : Z) : string :=
  match n with
  | O => EmptyString
  | S n' => (fixed_digits n' (q / 10) ++ String (digit (q mod 10)) EmptyString)%string
  end.

Definition int_digits (q : Z) : string :=
  NilZero.string_of_uint (N.to_uint (Z.to_N q)).

(** [m * 2^e * 10^6] rounded to the nearest integer, ties to even. *)
Definition scaled_micro (m : positive) (e : Z) : Z :=
  if 0 <=? e then Zpos m * 2 ^ e * 1000000
  else
    let num := Zpos m * 1000000 in
    let den := 2 ^ (- e) in
    let q := num / den in
    let r := num mod den in
    match 2 * r ?= den with
    | Lt => q
    | Gt => q + 1
    | Eq => if Z.even q then q else q + 1
    end.

Definition sign_string (s : bool) : string :=
  if s then "-"%string else EmptyString.

Definition fixed_string (q : Z) : string :=
  (int_digits (q / 1000000) ++ "." ++ fixed_digits 6 (q mod 1000000))%string.

Definition to_string (x : double) : string :=
  match x with
  | S754_nan => "nan"%string
  | S754_infinity s => (sign_string s ++ "inf")%string
  | S754_zero s => (sign_string s ++ fixed_string 0)%string
  | S754_finite s m e => (sign_string s ++ fixed_string (scaled_micro m e))%string
  end.

End Double.

Abbreviation double := Double.double.

(** ** The host runtime's arrays

    An [mxArray] as [parse_args] and [mexFunction] observe it: one field per
    accessor of the MEX interface that the adapter calls.  [mxGetM] and
    [mxGetN] hold the dimensions as the [int] the adapter stores them in.
    [mxGetPr] is the buffer of real values, column after column; the empty
    list stands for the null pointer of an array without real data.
    [mxArrayToString] is the C string of a character array. *)

Record mxArray : Type := {
  mxGetM : Z;
  mxGetN : Z;
  mxIsComplex : bool;
  mxIsEmpty : bool;
  mxIsCell : bool;
  mxIsNumeric : bool;
  mxIsChar : bool;
  mxGetPr : list double;
  mxArrayToString : string
}.

(** ** Errors of the argument parser *)

Inductive error_type : Type :=
| NO_ERROR
| ERROR_TOO_MANY_OUTPUT_ARGS
| ERROR_NOT_ENOUGH_ARGS
| ERROR_ARG_VALUE
| ERROR_ARG_TYPE
| ERROR_MATRIX
| ERROR_ARG_EMPTY
| ERROR_ARG_UNKNOWN.

Definition error_type_eqb (a b : error_type) : bool :=
  match a, b with
  | NO_ERROR, NO_ERROR
  | ERROR_TOO_MANY_OUTPUT_ARGS, ERROR_TOO_MANY_OUTPUT_ARGS
  | ERROR_NOT_ENOUGH_ARGS, ERROR_NOT_ENOUGH_ARGS
  | ERROR_ARG_VALUE, ERROR_ARG_VALUE
  | ERROR_ARG_TYPE, ERROR_ARG_TYPE
  | ERROR_MATRIX, ERROR_MATRIX
  | ERROR_ARG_EMPTY, ERROR_ARG_EMPTY
  | ERROR_ARG_UNKNOWN, ERROR_ARG_UNKNOWN => true
  | _, _ => false
  end.

(** The table [error_strings], indexed by the error.  The sixth entry is
    written over two source lines joined by a backslash, so the indentation
    of the second line is part of the text. *)
Definition error_strings (e : error_type) : string :=
  match e with
  | NO_ERROR => ""
  | ERROR_TOO_MANY_OUTPUT_ARGS => "Too many output arguments."
  | ERROR_NOT_ENOUGH_ARGS => "Not enough input arguments."
  | ERROR_ARG_VALUE => "Non valid argument value."
  | ERROR_ARG_TYPE => "Non valid argument type."
  | ERROR_MATRIX =>
      "Non valid input adjacency matrix. PACO accepts symmetric real dense-type (n x n) matrices or sparse edges-list representation     [num_edges x 3] array of edges list with edge endpoints and weight."
  | ERROR_ARG_EMPTY => "Expected some argument value but empty found."
  | ERROR_ARG_UNKNOWN => "Unkwown argument."
  end%string.

Record InfomapParams : Type := { options : string }.

(** ** [strcasecmp] *)

Definition tolower (c : ascii) : ascii :=
  let n := nat_of_ascii c in
  if (65 <=? n)%nat && (n <=? 90)%nat then ascii_of_nat (n + 32) else c.

Definition char_code (c : ascii) : Z := Z.of_nat (nat_of_ascii c).

Fixpoint strcasecmp (s t : string) : Z :=
  match s, t with
  | EmptyString, EmptyString => 0
  | EmptyString, String d _ => 0 - char_code (tolower d)
  | String c _, EmptyString => char_code (tolower c)
  | String c s', String d t' =>
      if Ascii.eqb (tolower c) (tolower d) then strcasecmp s' t'
      else char_code (tolower c) - char_code (tolower d)
  end.

(** Equality of two names up to the case of their letters. *)
Fixpoint lower (s : string) : string :=
  match s with
  | EmptyString => EmptyString
  | String c s' => String (tolower c) (lower s')
  end.

Definition same_name (s t : string) : Prop := lower s = lower t.

(** ** [parse_args]

    The result is [None] where the source dereferences the null pointer that
    [mxGetPr] returns for a value without real data; otherwise the returned
    error, the parameters and the error position as the call leaves them. *)

Definition parse_result : Type := option (error_type * InfomapParams * Z).

Definition add_option (pars : InfomapParams) (s : string) : InfomapParams :=
  {| options := (options pars ++ s)%string |}.

(** The loop [while (argcount < nInputArgs)]: [rest] holds the arguments
    from index [argcount] on. *)
Fixpoint parse_pairs (rest : list mxArray) (argcount : Z)
    (pars : InfomapParams) (argposerr : Z) : parse_result :=
  match rest with
  | [] => Some (NO_ERROR, pars, argposerr)
  | [_] => Some (ERROR_ARG_EMPTY, pars, argcount)
  | partype :: parval :: rest' =>
      if mxIsChar partype && negb (mxIsChar parval) then
        let cpartype := mxArrayToString partype in
        if strcasecmp cpartype "N" =? 0 then
          match mxGetPr parval with
          | [] => None
          | v :: _ =>
              if Double.ltb v Double.zero
              then Some (ERROR_ARG_VALUE, pars, argcount + 1)
              else parse_pairs rest' (argcount + 2)
                     (add_option pars (" -N" ++ Double.to_string v ++ " ")) argposerr
          end
        else if strcasecmp cpartype "p" =? 0 then
          match mxGetPr parval with
          | [] => None
          | v :: _ =>
              if Double.ltb v Double.zero || Double.gtb v Double.one
              then Some (ERROR_ARG_VALUE, pars, argcount + 1)
              else parse_pairs rest' (argcount + 2)
                     (add_option pars (" -p" ++ Double.to_string v ++ " ")) argposerr
          end
        else if strcasecmp cpartype "y" =? 0 then
          match mxGetPr parval with
          | [] => None
          | v :: _ =>
              if Double.ltb v Double.zero || Double.gtb v Double.one
              then Some (ERROR_ARG_VALUE, pars, argcount + 1)
              else parse_pairs rest' (argcount + 2)
                     (add_option pars (" -y" ++ Double.to_string v ++ " ")) argposerr
          end
        else if strcasecmp cpartype "markov-time" =? 0 then
          match mxGetPr parval with
          | [] => None
          | v :: _ =>
              if Double.ltb v Double.zero
              then Some (ERROR_ARG_VALUE, pars, argcount + 1)
              else parse_pairs rest' (argcount + 2)
                     (add_option pars (" --markov-time " ++ Double.to_string v ++ " ")) argposerr
          end
        else Some (ERROR_ARG_UNKNOWN, pars, argcount)
      else Some (ERROR_ARG_TYPE, pars, argcount)
  end.

Definition parse_args (nOutputArgs : Z) (inputArgs : list mxArray)
    (pars : InfomapParams) (argposerr : Z) : parse_result :=
  let nInputArgs := Z.of_nat (length inputArgs) in
  if nInputArgs <? 1 then Some (ERROR_NOT_ENOUGH_ARGS, pars, 0)
  else if nOutputArgs >? 2 then Some (ERROR_TOO_MANY_OUTPUT_ARGS, pars, 0)
  else
    match inputArgs with
    | [] => Some (ERROR_NOT_ENOUGH_ARGS, pars, 0)
    | W :: rest =>
        let M := mxGetM W in
        let N := mxGetN W in
        let feedingSparseMatrix := (N =? 3) && (M >? 3) in
        let v1 := if feedingSparseMatrix then false else negb (M =? N) in
        let v2 := mxIsComplex W in
        let v3 := mxIsEmpty W in
        let v4 := mxIsCell W in
        let v5 := negb (mxIsNumeric W) in
        if v1 || v2 || v3 || v4 || v5 then Some (ERROR_MATRIX, pars, 0)
        else parse_pairs rest 1 pars argposerr
    end.

(** ** The triplet input inside [mexFunction]

    [IJW] is the Eigen map of the buffer [W] as a matrix of [M] rows stored
    column after column: entry [(l, j)] is at offset [l + j * M].  A buffer
    of a well-formed array holds [M * N] values; the model reads zero beyond
    it. *)

Definition IJW (W : list double) (M : Z) (l j : nat) : double :=
  nth (l + j * Z.to_nat M) W Double.zero.

(** The row numbers [0 .. M-1] of the loops over the rows. *)
Definition row_numbers (M : Z) : list nat := seq 0 (Z.to_nat M).

(** [(IJW.col(0).array() >= IJW.col(1).array()).cast<int>()] and its
    counterpart with [<]. *)
Definition B1 (W : list double) (M : Z) : list Z :=
  map (fun l => Z.b2z (Double.geb (IJW W M l 0) (IJW W M l 1))) (row_numbers M).

Definition B2 (W : list double) (M : Z) : list Z :=
  map (fun l => Z.b2z (Double.ltb (IJW W M l 0) (IJW W M l 1))) (row_numbers M).

(** [.sum()]: every entry is 0 or 1, so the sum is at most [M] and stays
    inside [int]. *)
Definition sum (xs : list Z) : Z := fold_right Z.add 0 xs.

Record triplet_flags : Type := {
  isUpperTriangular : bool;
  isLowerTriangular : bool;
  isSymmetric : bool
}.

Definition classify (W : list double) (M : Z) : triplet_flags :=
  let sum1 := sum (B1 W M) in
  let sum2 := sum (B2 W M) in
  {| isSymmetric := sum1 =? sum2;
     isUpperTriangular := (sum1 =? 0) && (sum2 =? M);
     isLowerTriangular := (sum1 =? M) && (sum2 =? 0) |}.

(** The two vectors the loop over the rows fills with [push_back]. *)
Record edge_vectors : Type := {
  edges_list : list double;
  edges_weights : list double
}.

Definition push_edge (ev : edge_vectors) (row_node column_node w : double)
    : edge_vectors :=
  {| edges_list := edges_list ev ++ [Double.sub column_node Double.one;
                                     Double.sub row_node Double.one];
     edges_weights := edges_weights ev ++ [w] |}.

Definition edge_step (W : list double) (M : Z) (f : triplet_flags)
    (ev : edge_vectors) (l : nat) : edge_vectors :=
  let row_node := IJW W M l 0 in
  let column_node := IJW W M l 1 in
  let w := IJW W M l 2 in
  if isUpperTriangular f || isLowerTriangular f then
    push_edge ev row_node column_node w
  else if isSymmetric f then
    if Double.ltb row_node column_node then push_edge ev row_node column_node w
    else ev
  else ev.

Definition build_edges (W : list double) (M : Z) (f : triplet_flags)
    : edge_vectors :=
  fold_left (edge_step W M f) (row_numbers M)
    {| edges_list := []; edges_weights := [] |}.

(** ** Exceptions and the outcome of a call *)

Inductive exception : Type :=
| logic_error (what_arg : string)
| out_of_range (n size : nat)
| collaborator_error (what_arg : string).

Definition string_of_nat (n : nat) : string :=
  NilZero.string_of_uint (Nat.to_uint n).

(** [e.what()]; the text of [out_of_range] is the one libstdc++ gives to a
    failed [vector::at]. *)
Definition what (e : exception) : string :=
  match e with
  | logic_error s => s
  | collaborator_error s => s
  | out_of_range n size =>
      ("vector::_M_range_check: __n (which is " ++ string_of_nat n
         ++ ") >= this->size() (which is " ++ string_of_nat size ++ ")")%string
  end.

Definition not_symmetric_nor_triangular : string :=
  "Matrix is not symmetric, nor triangular lower or upper triangular. Check diagonal and non symmetric values."%string.

(** What the adapter hands to the constructor of [GraphC]. *)
Inductive graph_args : Type :=
| GraphC_edges (edges weights : list double) (n_edges : nat)
| GraphC_dense (W : list double) (rows cols : Z).

Definition sparse_graph (W : list double) (M : Z) : exception + graph_args :=
  let f := classify W M in
  if negb (isSymmetric f) && negb (isUpperTriangular f) && negb (isLowerTriangular f)
  then inl (logic_error not_symmetric_nor_triangular)
  else
    let ev := build_edges W M f in
    inr (GraphC_edges (edges_list ev) (edges_weights ev) (length (edges_weights ev))).

Definition make_graph (W0 : mxArray) : exception + graph_args :=
  let N := mxGetN W0 in
  let M := mxGetM W0 in
  let feedingSparseMatrix := (M >? 3) && (N =? 3) in
  if feedingSparseMatrix then sparse_graph (mxGetPr W0) M
  else inr (GraphC_dense (mxGetPr W0) N N).

(** A leaf of the engine's result: [leafIt->originalLeafIndex] and
    [leafIt->parentNode->parentIndex], both unsigned. *)
Record leaf : Type := {
  originalLeafIndex : nat;
  parentIndex : nat
}.

(** What the adapter reads back once the engine has run:
    [G->number_of_nodes()], the leaves of the result network and
    [resultNetwork.codelength()]. *)
Record engine_output : Type := {
  number_of_nodes : nat;
  leaves : list leaf;
  codelength : double
}.

(** The loop over the leaves: [membership.at(i) = double(c)], where [at]
    throws for an index that is not below the size. *)
Fixpoint fill_membership (ls : list leaf) (membership : list double)
    : exception + list double :=
  match ls with
  | [] => inr membership
  | lf :: ls' =>
      if (originalLeafIndex lf <? length membership)%nat then
        fill_membership ls'
          (<[originalLeafIndex lf := Double.of_Z (Z.of_nat (parentIndex lf))]> membership)
      else inl (out_of_range (originalLeafIndex lf) (length membership))
  end.

Inductive event : Type :=
| mexPrintf (text : string)
| cerr (text : string).

(** How a call ends: [mexErrMsgTxt] hands the message to the caller and
    gives it no output; a normal return gives the two outputs. *)
Inductive completion : Type :=
| mexErrMsgTxt (msg : string)
| returned (membership : list double) (code_length : double)
| undefined_behaviour.

Record mex_run : Type := {
  printed : list event;
  completed : completion
}.

Definition usage : string := String.append "Matlab Infomap adapter." (String "010" EmptyString).

Definition string_of_int (z : Z) : string := NilZero.string_of_int (Z.to_int z).

Definition error_message (error_arg_pos : Z) (err : error_type) : string :=
  ("Error at argument: " ++ string_of_int error_arg_pos ++ ": " ++ error_strings err)%string.

(** The statements after the engine has run: the membership vector of one
    entry per node, the loop over the leaves, and the two outputs. *)
Definition read_result (result : engine_output)
    : exception + (list double * double) :=
  match fill_membership (leaves result)
          (replicate (number_of_nodes result) Double.zero) with
  | inl e => inl e
  | inr membership => inr (membership, codelength result)
  end.

(** The end of the [try] block: the handler of [catch (std::exception &e)]
    or the normal return. *)
Definition finish (r : exception + (list double * double)) : mex_run :=
  match r with
  | inl e =>
      {| printed := [cerr (what e ++ String "010" EmptyString)];
         completed := mexErrMsgTxt (what e) |}
  | inr (membership, cl) =>
      {| printed := []; completed := returned membership cl |}
  end.

Section Collaborators.

(** [GraphC] and the Infomap engine: from the arguments of the graph
    constructor and the option string to the result the adapter reads, or
    to the exception they throw. *)
Variable infomap : graph_args -> string -> exception + engine_output.

(** The body of the [try] block. *)
Definition try_block (W0 : mxArray) (pars : InfomapParams)
    : exception + (list double * double) :=
  match make_graph W0 with
  | inl e => inl e
  | inr G =>
      let pars := add_option pars "--two-level" in
      match infomap G (options pars) with
      | inl e => inl e
      | inr result => read_result result
      end
  end.

Definition mexFunction (nOutputArgs : Z) (inputArgs : list mxArray) : mex_run :=
  match parse_args nOutputArgs inputArgs {| options := "" |} (-1) with
  | None => {| printed := []; completed := undefined_behaviour |}
  | Some (err, pars, error_arg_pos) =>
      if negb (error_type_eqb err NO_ERROR) then
        {| printed := if error_type_eqb err ERROR_NOT_ENOUGH_ARGS
                      then [mexPrintf usage] else [];
           completed := mexErrMsgTxt (error_message error_arg_pos err) |}
      else
        match inputArgs with
        | [] => {| printed := []; completed := undefined_behaviour |}
        | W0 :: _ => finish (try_block W0 pars)
        end
  end.

End Collaborators.

(** ** The words of the specification *)

(** A row of a triplet input: row index, column index, weight. *)
Definition triplet : Type := double * double * double.

Definition row_of (t : triplet) : double := fst (fst t).
Definition col_of (t : triplet) : double := snd (fst t).
Definition weight_of (t : triplet) : double := snd t.

(** The rows of the buffer [W] read as [M] triplets. *)
Definition triplets (W : list double) (M : Z) : list triplet :=
  map (fun l => (IJW W M l 0, IJW W M l 1, IJW W M l 2)) (row_numbers M).

(** The array of a list of triplets, as [find] of MATLAB lays it out. *)
Definition triplet_input (ts : list triplet) : mxArray :=
  {| mxGetM := Z.of_nat (length ts);
     mxGetN := 3;
     mxIsComplex := false;
     mxIsEmpty := match ts with [] => true | _ => false end;
     mxIsCell := false;
     mxIsNumeric := true;
     mxIsChar := false;
     mxGetPr := map row_of ts ++ map col_of ts ++ map weight_of ts;
     mxArrayToString := EmptyString |}.

Definition row_ge_col (t : triplet) : bool := Double.geb (row_of t) (col_of t).
Definition row_lt_col (t : triplet) : bool := Double.ltb (row_of t) (col_of t).

Inductive MatrixShape : Type :=
| Dense
| SparseSymmetric
| SparseUpperTriangular
| SparseLowerTriangular
| SparseInvalid.

(** The shape the flags stand for, in the order the code consults them: the
    loop over the rows tests the triangular flags first, then the symmetric
    one; with no flag set the code throws. *)
Definition shape_of_flags (f : triplet_flags) : MatrixShape :=
  if isUpperTriangular f then SparseUpperTriangular
  else if isLowerTriangular f then SparseLowerTriangular
  else if isSymmetric f then SparseSymmetric
  else SparseInvalid.

(** An edge: two zero-based node numbers and a weight. *)
Record Edge : Type := { source : double; target : double; weight : double }.

(** The edges two vectors stand for: edge [i] joins entries [2i] and [2i+1]
    of the first and has weight [i] of the second. *)
Fixpoint edges_of (el ew : list double) : list Edge :=
  match el, ew with
  | a :: b :: el', w :: ew' =>
      {| source := a; target := b; weight := w |} :: edges_of el' ew'
  | _, _ => []
  end.

Definition edge_of_triplet (t : triplet) : Edge :=
  {| source := Double.sub (col_of t) Double.one;
     target := Double.sub (row_of t) Double.one;
     weight := weight_of t |}.

(** [sum1] and [sum2] in the words of the specification: the number of rows
    on or below the diagonal, and above it. *)
Definition count_rows (p : triplet -> bool) (ts : list triplet) : Z :=
  Z.of_nat (length (List.filter p ts)).

(** Which rows the loop over the rows turns into edges. *)
Definition emitted (f : triplet_flags) (t : triplet) : bool :=
  if isUpperTriangular f || isLowerTriangular f then true
  else if isSymmetric f then row_lt_col t
  else false.

Definition endpoints (t : triplet) : list double :=
  [Double.sub (col_of t) Double.one; Double.sub (row_of t) Double.one].

(** Sample values for the examples. *)
Definition d_of (z : Z) : double := Double.of_Z z.
Definition one_half : double := Double.of_binary 1 (-1).
Definition one_fifth : double := Double.of_binary 7205759403792794 (-55).

Definition path_both_ways : list triplet :=
  [(d_of 1, d_of 2, one_half); (d_of 2, d_of 3, one_half);
   (d_of 2, d_of 1, one_half); (d_of 3, d_of 2, one_half)].

Definition upper_only : list triplet :=
  [(d_of 1, d_of 2, one_half); (d_of 1, d_of 3, one_half);
   (d_of 2, d_of 3, one_half); (d_of 1, d_of 4, one_fifth)].

Definition unbalanced : list triplet :=
  [(d_of 1, d_of 2, one_half); (d_of 1, d_of 3, one_half);
   (d_of 2, d_of 1, one_half); (d_of 2, d_of 3, one_half)].

(** A character array holding [s], and a real scalar holding [v]. *)
Definition name_arg (s : string) : mxArray :=
  {| mxGetM := 1;
     mxGetN := Z.of_nat (String.length s);
     mxIsComplex := false;
     mxIsEmpty := match s with EmptyString => true | _ => false end;
     mxIsCell := false;
     mxIsNumeric := false;
     mxIsChar := true;
     mxGetPr := [];
     mxArrayToString := s |}.

Definition value_arg (v : double) : mxArray :=
  {| mxGetM := 1;
     mxGetN := 1;
     mxIsComplex := false;
     mxIsEmpty := false;
     mxIsCell := false;
     mxIsNumeric := true;
     mxIsChar := false;
     mxGetPr := [v];
     mxArrayToString := EmptyString |}.

(** A dense matrix of [n] rows and [n] columns over the buffer [W]. *)
Definition dense_input (n : Z) (W : list double) : mxArray :=
  {| mxGetM := n;
     mxGetN := n;
     mxIsComplex := false;
     mxIsEmpty := false;
     mxIsCell := false;
     mxIsNumeric := true;
     mxIsChar := false;
     mxGetPr := W;
     mxArrayToString := EmptyString |}.

(** The matrix checks at the head of [parse_args]. *)
Definition matrix_refused (W : mxArray) : bool :=
  let feedingSparseMatrix := (mxGetN W =? 3) && (mxGetM W >? 3) in
  (if feedingSparseMatrix then false else negb (mxGetM W =? mxGetN W))
  || mxIsComplex W || mxIsEmpty W || mxIsCell W || negb (mxIsNumeric W).

(** What the loop does with one pair whose name is [cpartype] and whose
    value is [v]: the four branches on the name and their range tests. *)
Inductive pair_outcome : Type :=
| pair_unknown
| pair_bad_value
| pair_flag (text : string).

Definition parse_pair (cpartype : string) (v : double) : pair_outcome :=
  if strcasecmp cpartype "N" =? 0 then
    if Double.ltb v Double.zero then pair_bad_value
    else pair_flag (" -N" ++ Double.to_string v ++ " ")
  else if strcasecmp cpartype "p" =? 0 then
    if Double.ltb v Double.zero || Double.gtb v Double.one then pair_bad_value
    else pair_flag (" -p" ++ Double.to_string v ++ " ")
  else if strcasecmp cpartype "y" =? 0 then
    if Double.ltb v Double.zero || Double.gtb v Double.one then pair_bad_value
    else pair_flag (" -y" ++ Double.to_string v ++ " ")
  else if strcasecmp cpartype "markov-time" =? 0 then
    if Double.ltb v Double.zero then pair_bad_value
    else pair_flag (" --markov-time " ++ Double.to_string v ++ " ")
  else pair_unknown.

(** The four parameters and the ranges the specification documents. *)
Inductive parameter : Type := par_N | par_p | par_y | par_markov_time.

Definition parameter_name (o : parameter) : string :=
  match o with
  | par_N => "N"
  | par_p => "p"
  | par_y => "y"
  | par_markov_time => "markov-time"
  end.

Definition in_documented_range (o : parameter) (v : double) : bool :=
  match o with
  | par_N | par_markov_time => Double.geb v Double.zero
  | par_p | par_y => Double.geb v Double.zero && Double.geb Double.one v
  end.

Definition flag_prefix (o : parameter) : string :=
  match o with
  | par_N => "-N"
  | par_p => "-p"
  | par_y => "-y"
  | par_markov_time => "--markov-time "
  end.

(** The parameter a name selects, in the order the code tries the names. *)
Definition parameter_of (cpartype : string) : option parameter :=
  if strcasecmp cpartype "N" =? 0 then Some par_N
  else if strcasecmp cpartype "p" =? 0 then Some par_p
  else if strcasecmp cpartype "y" =? 0 then Some par_y
  else if strcasecmp cpartype "markov-time" =? 0 then Some par_markov_time
  else None.

(** The flag token of a pair: the flag of its parameter followed by the
    value as [std::to_string] prints it. *)
Definition flag_token (pair : mxArray * mxArray) : string :=
  match parameter_of (mxArrayToString (fst pair)), mxGetPr (snd pair) with
  | Some o, v :: _ => flag_prefix o ++ Double.to_string v
  | _, _ => EmptyString
  end.

(** The arguments after the matrix, two at a time. *)
Fixpoint pairs_of (args : list mxArray) : list (mxArray * mxArray) :=
  match args with
  | name :: value :: args' => (name, value) :: pairs_of args'
  | _ => []
  end.

(** A token between two spaces, and the string of a list of tokens. *)
Definition spaced (token : string) : string := (" " ++ token ++ " ")%string.

Definition join_flags (tokens : list string) : string :=
  fold_right String.append EmptyString (map spaced tokens).



Fixpoint all_chars (p : ascii -> bool) (s : string) : bool :=
  match s with
  | EmptyString => true
  | String c s' => p c && all_chars p s'
  end.

Definition is_digit (c : ascii) : bool :=
  let n := nat_of_ascii c in (48 <=? n)%nat && (n <=? 57)%nat.


Definition not_nul (c : ascii) : bool := negb (Ascii.eqb c Ascii.zero).



(** Every pair of [args] is one the loop accepts: a character name, a
    value that is not a character array and holds a number, and a flag as
    the outcome; no lone argument is left. *)
Fixpoint accepted_pairs (args : list mxArray) : bool :=
  match args with
  | [] => true
  | [_] => false
  | name :: value :: args' =>
      mxIsChar name && negb (mxIsChar value)
      && match mxGetPr value with
         | [] => false
         | v :: _ =>
             match parse_pair (mxArrayToString name) v with
             | pair_flag _ => true
             | _ => false
             end
         end
      && accepted_pairs args'
  end.

(** The parameters and the error position [mexFunction] starts from. *)
Definition no_options : InfomapParams := {| options := EmptyString |}.

(** The configuration string of a list of arguments: the flags of its pairs
    in the order of the arguments, then the fixed flag. *)
Definition configuration (args : list mxArray) : string :=
  (join_flags (map flag_token (pairs_of args)) ++ "--two-level")%string.

(** What [mexFunction] does with the answer of the collaborators. *)
Definition after_engine (answer : exception + engine_output) : mex_run :=
  finish match answer with
         | inl e => inl e
         | inr result => read_result result
         end.

(** The array [W] with the buffer [data] in place of its values. *)
Definition with_values (W : mxArray) (data : list double) : mxArray :=
  {| mxGetM := mxGetM W;
     mxGetN := mxGetN W;
     mxIsComplex := mxIsComplex W;
     mxIsEmpty := mxIsEmpty W;
     mxIsCell := mxIsCell W;
     mxIsNumeric := mxIsNumeric W;
     mxIsChar := mxIsChar W;
     mxGetPr := data;
     mxArrayToString := mxArrayToString W |}.

(** The 2 x 2 matrix with rows (0, 1) and (0, 0), which is not symmetric. *)
Definition not_symmetric_2x2 : mxArray :=
  dense_input 2 [d_of 0; d_of 0; d_of 1; d_of 0].

(** The cluster of the last leaf whose original index is [i], if any. *)
Fixpoint last_cluster (ls : list leaf) (i : nat) : option nat :=
  match ls with
  | [] => None
  | lf :: ls' =>
      match last_cluster ls' i with
      | Some c => Some c
      | None => if (originalLeafIndex lf =? i)%nat then Some (parentIndex lf) else None
      end
  end.

(** An engine for the examples: three nodes, the leaves (2,0), (0,1), (1,1)
    and a codelength of one half, whatever the graph. *)
Definition sample_leaves : list leaf :=
  [ {| originalLeafIndex := 2; parentIndex := 0 |};
    {| originalLeafIndex := 0; parentIndex := 1 |};
    {| originalLeafIndex := 1; parentIndex := 1 |} ].

Definition sample_engine (G : graph_args) (opts : string)
    : exception + engine_output :=
  inr {| number_of_nodes := 3; leaves := sample_leaves; codelength := one_half |}.

(** Rows strictly below the diagonal, rows on it, and rows whose two
    indices do not compare (one of them is a NaN). *)
Definition row_gt_col (t : triplet) : bool := Double.ltb (col_of t) (row_of t).

Definition row_eq_col (t : triplet) : bool := SFeqb (row_of t) (col_of t).

Definition row_unordered (t : triplet) : bool :=
  match SFcompare (row_of t) (col_of t) with
  | None => true
  | Some _ => false
  end.

(** [mxGetPr] does not answer the null pointer. *)
Definition holds_data (a : mxArray) : bool :=
  match mxGetPr a with
  | [] => false
  | _ :: _ => true
  end.

(** Every argument that is not a character array holds real data. *)
Definition values_hold_data (args : list mxArray) : bool :=
  forallb (fun a => mxIsChar a || holds_data a) args.

(** The errors the walk over the pairs can return. *)
Definition pair_error (err : error_type) : bool :=
  match err with
  | ERROR_ARG_VALUE | ERROR_ARG_TYPE | ERROR_ARG_EMPTY | ERROR_ARG_UNKNOWN => true
  | _ => false
  end.

(** Two lists of triplets with the same indices, row by row. *)
Definition same_indices (ts ts' : list triplet) : Prop :=
  Forall2 (fun t t' => row_of t = row_of t' /\ col_of t = col_of t') ts ts'.

(** Two lists of triplets with the same indices, and the same weight on the
    rows above the diagonal. *)
Definition same_above_diagonal (ts ts' : list triplet) : Prop :=
  Forall2 (fun t t' => row_of t = row_of t' /\ col_of t = col_of t'
                       /\ (row_lt_col t = true -> weight_of t = weight_of t'))
    ts ts'.

Definition not_colon (c : ascii) : bool := negb (Ascii.eqb c ":").

(** The buffer of a list of triplets: the column of the row indices, the
    column of the column indices, the column of the weights. *)
Definition columns (ts : list triplet) : list double :=
  map row_of ts ++ map col_of ts ++ map weight_of ts.





(** The upper-case letter of a lower-case letter, read off the two
    alphabets; any other character is left as it is. *)
Fixpoint letter_of (from to : string) (c : ascii) : ascii :=
  match from, to with
  | String a from', String b to' =>
      if Ascii.eqb c a then b else letter_of from' to' c
  | _, _ => c
  end.

Definition upper_of (c : ascii) : ascii :=
  letter_of "abcdefghijklmnopqrstuvwxyz" "ABCDEFGHIJKLMNOPQRSTUVWXYZ" c.

Fixpoint upper (s : string) : string :=
  match s with
  | EmptyString => EmptyString
  | String c s' => String (upper_of c) (upper s')
  end.

(** Two names that differ at most in the case of their letters. *)
Definition case_variant (s t : string) : Prop := upper s = upper t.




(** * Properties *)

(** ** Reading the buffer as triplets *)

Lemma sum_b2z {A : Type} (p : A -> bool) (xs : list A) :
  sum (map (fun x => Z.b2z (p x)) xs) = Z.of_nat (length (List.filter p xs)).
Proof.
  induction xs as [|x xs IH]; [reflexivity|].
  change (sum (map (fun x => Z.b2z (p x)) (x :: xs)))
    with (Z.b2z (p x) + sum (map (fun x => Z.b2z (p x)) xs)).
  rewrite IH. simpl List.filter. destruct (p x); simpl length; simpl Z.b2z; lia.
Qed.

Lemma filter_map_comm {A B : Type} (f : A -> B) (p : B -> bool) (xs : list A) :
  List.filter p (map f xs) = map f (List.filter (fun x => p (f x)) xs).
Proof.
  induction xs as [|x xs IH]; simpl; [reflexivity|].
  destruct (p (f x)); simpl; rewrite IH; reflexivity.
Qed.

Lemma sum_B1 (W : list double) (M : Z) :
  sum (B1 W M) = count_rows row_ge_col (triplets W M).
Proof.
  unfold B1, count_rows, triplets.
  rewrite filter_map_comm, length_map.
  apply (sum_b2z (fun l => Double.geb (IJW W M l 0) (IJW W M l 1))).
Qed.

Lemma sum_B2 (W : list double) (M : Z) :
  sum (B2 W M) = count_rows row_lt_col (triplets W M).
Proof.
  unfold B2, count_rows, triplets.
  rewrite filter_map_comm, length_map.
  apply (sum_b2z (fun l => Double.ltb (IJW W M l 0) (IJW W M l 1))).
Qed.

Lemma IJW_triplet_input (ts : list triplet) (l : nat) (t0 : triplet) :
  (l < length ts)%nat ->
  let W := mxGetPr (triplet_input ts) in
  let M := mxGetM (triplet_input ts) in
  (IJW W M l 0, IJW W M l 1, IJW W M l 2) = nth l ts t0.
Proof.
  intros Hl W M. subst W M. unfold IJW. simpl mxGetPr. simpl mxGetM.
  rewrite Nat2Z.id.
  set (n := length ts).
  assert (Hr : length (map row_of ts) = n) by apply length_map.
  assert (Hc : length (map col_of ts) = n) by apply length_map.
  assert (Hw : length (map weight_of ts) = n) by apply length_map.
  replace (l + 0 * n)%nat with l by lia.
  rewrite app_nth1 by lia.
  rewrite (app_nth2 (map row_of ts)) by lia.
  rewrite (app_nth2 (map row_of ts) _ _ (n := (l + 2 * n)%nat)) by lia.
  rewrite Hr.
  replace (l + 1 * n - n)%nat with l by lia.
  replace (l + 2 * n - n)%nat with (l + n)%nat by lia.
  rewrite app_nth1 by lia.
  rewrite app_nth2 by lia.
  rewrite Hc. replace (l + n - n)%nat with l by lia.
  rewrite (nth_indep (map row_of ts) Double.zero (row_of t0)) by lia.
  rewrite (nth_indep (map col_of ts) Double.zero (col_of t0)) by lia.
  rewrite (nth_indep (map weight_of ts) Double.zero (weight_of t0)) by lia.
  rewrite !map_nth.
  destruct (nth l ts t0) as [[r c] w]. reflexivity.
Qed.

(** The layout of [triplet_input] is the one [IJW] reads. *)
Lemma triplets_triplet_input (ts : list triplet) :
  triplets (mxGetPr (triplet_input ts)) (mxGetM (triplet_input ts)) = ts.
Proof.
  set (t0 := (Double.zero, Double.zero, Double.zero) : triplet).
  apply (nth_ext _ _ t0 t0).
  - unfold triplets, row_numbers. simpl mxGetM.
    rewrite length_map, length_seq, Nat2Z.id. reflexivity.
  - intros l Hl.
    unfold triplets, row_numbers in *. simpl mxGetM in *.
    rewrite length_map, length_seq, Nat2Z.id in Hl.
    rewrite Nat2Z.id.
    set (f := fun l : nat =>
                (IJW (mxGetPr (triplet_input ts)) (Z.of_nat (length ts)) l 0,
                 IJW (mxGetPr (triplet_input ts)) (Z.of_nat (length ts)) l 1,
                 IJW (mxGetPr (triplet_input ts)) (Z.of_nat (length ts)) l 2)).
    rewrite (nth_indep _ t0 (f O))
      by (rewrite length_map, length_seq; exact Hl).
    rewrite (map_nth f), seq_nth by exact Hl.
    unfold f. simpl Nat.add.
    exact (IJW_triplet_input ts l t0 Hl).
Qed.

(** ** Comparison of doubles *)

Lemma SFcompare_antisym (x y : spec_float) :
  SFcompare y x = option_map CompOpp (SFcompare x y).
Proof.
  destruct x as [sx|sx| |sx mx ex], y as [sy|sy| |sy my ey];
    try destruct sx; try destruct sy; try reflexivity; simpl;
    rewrite (Z.compare_antisym ex ey);
    destruct (ex ?= ey); simpl; try reflexivity;
    rewrite !Pos.compare_cont_antisym; reflexivity.
Qed.

Lemma geb_excludes_ltb (x y : double) :
  Double.geb x y = true -> Double.ltb x y = false.
Proof.
  unfold Double.geb, Double.ltb, SFleb, SFltb.
  rewrite (SFcompare_antisym x y).
  destruct (SFcompare x y) as [[ | | ]|]; simpl; congruence.
Qed.

(** ** The loop that builds the edge vectors *)

Lemma edge_step_spec (W : list double) (M : Z) (f : triplet_flags)
    (ev : edge_vectors) (l : nat) :
  let t := (IJW W M l 0, IJW W M l 1, IJW W M l 2) in
  edge_step W M f ev l =
    if emitted f t
    then {| edges_list := edges_list ev ++ endpoints t;
            edges_weights := edges_weights ev ++ [weight_of t] |}
    else ev.
Proof.
  unfold edge_step, emitted, push_edge, endpoints, row_lt_col, row_of, col_of, weight_of.
  simpl.
  destruct (isUpperTriangular f || isLowerTriangular f); [reflexivity|].
  destruct (isSymmetric f); reflexivity.
Qed.

Lemma fold_edge_step (W : list double) (M : Z) (f : triplet_flags)
    (ls : list nat) (ev : edge_vectors) :
  let ts := List.filter (emitted f)
              (map (fun l => (IJW W M l 0, IJW W M l 1, IJW W M l 2)) ls) in
  fold_left (edge_step W M f) ls ev =
    {| edges_list := edges_list ev ++ List.flat_map endpoints ts;
       edges_weights := edges_weights ev ++ map weight_of ts |}.
Proof.
  revert ev. induction ls as [|l ls IH]; intros ev; simpl.
  - rewrite !app_nil_r. destruct ev; reflexivity.
  - rewrite IH. rewrite edge_step_spec.
    destruct (emitted f (IJW W M l 0, IJW W M l 1, IJW W M l 2)); simpl.
    + rewrite <- !app_assoc. reflexivity.
    + reflexivity.
Qed.

Lemma build_edges_spec (W : list double) (M : Z) (f : triplet_flags) :
  build_edges W M f =
    {| edges_list := List.flat_map endpoints (List.filter (emitted f) (triplets W M));
       edges_weights := map weight_of (List.filter (emitted f) (triplets W M)) |}.
Proof.
  unfold build_edges. rewrite fold_edge_step. reflexivity.
Qed.

Lemma edges_of_endpoints (ts : list triplet) :
  edges_of (List.flat_map endpoints ts) (map weight_of ts) = map edge_of_triplet ts.
Proof.
  induction ts as [|t ts IH]; simpl; [reflexivity|].
  rewrite IH. reflexivity.
Qed.

Lemma filter_true {A : Type} (xs : list A) :
  List.filter (fun _ => true) xs = xs.
Proof.
  induction xs as [|x xs IH]; simpl; [reflexivity | rewrite IH; reflexivity].
Qed.

(** The flags of a triplet input in terms of the two counts. *)
Lemma classify_counts (W : list double) (M : Z) :
  let sum1 := count_rows row_ge_col (triplets W M) in
  let sum2 := count_rows row_lt_col (triplets W M) in
  classify W M =
    {| isUpperTriangular := (sum1 =? 0) && (sum2 =? M);
       isLowerTriangular := (sum1 =? M) && (sum2 =? 0);
       isSymmetric := sum1 =? sum2 |}.
Proof.
  unfold classify. rewrite sum_B1, sum_B2. reflexivity.
Qed.

Lemma make_graph_triplet (W0 : mxArray) :
  mxGetN W0 = 3 -> 3 < mxGetM W0 ->
  make_graph W0 = sparse_graph (mxGetPr W0) (mxGetM W0).
Proof.
  intros HN HM. unfold make_graph. rewrite HN.
  replace (mxGetM W0 >? 3) with true by (symmetry; apply Z.gtb_lt; lia).
  reflexivity.
Qed.

Ltac bool_cases :=
  repeat match goal with
         | |- context [?a =? ?b] =>
             let E := fresh "E" in
             destruct (Z.eqb_spec a b) as [E|E]
         end;
  cbn [negb andb orb].

(** ** The edges of a triplet input *)

Lemma filter_ext_bool {A : Type} (p q : A -> bool) (xs : list A) :
  (forall x, p x = q x) -> List.filter p xs = List.filter q xs.
Proof.
  intros H. induction xs as [|x xs IH]; simpl; [reflexivity|].
  rewrite H, IH. reflexivity.
Qed.

Lemma sparse_graph_edges (W : list double) (M : Z) :
  shape_of_flags (classify W M) <> SparseInvalid ->
  let kept := List.filter (emitted (classify W M)) (triplets W M) in
  sparse_graph W M =
    inr (GraphC_edges (List.flat_map endpoints kept) (map weight_of kept)
           (length (map weight_of kept))).
Proof.
  intros Hshape kept. unfold sparse_graph. cbv zeta.
  rewrite build_edges_spec. cbn [edges_list edges_weights]. fold kept.
  unfold shape_of_flags in Hshape.
  destruct (isUpperTriangular (classify W M)), (isLowerTriangular (classify W M)),
    (isSymmetric (classify W M)); try reflexivity.
  exfalso. apply Hshape. reflexivity.
Qed.

(** C5. For a triplet input of the symmetric shape the edge vectors hold
    exactly the rows whose row index is below the column index, in the order
    of the rows, each as the edge (column - 1, row - 1, weight); every row
    whose row index is at least the column index, the diagonal included, is
    left out.  The rows (1,2,0.5), (2,3,0.5), (2,1,0.5), (3,2,0.5) give the
    edges (1,0,0.5) and (2,1,0.5). *)
Theorem C5_symmetric_edges :
  (forall W0 : mxArray,
      mxGetN W0 = 3 -> 3 < mxGetM W0 ->
      shape_of_flags (classify (mxGetPr W0) (mxGetM W0)) = SparseSymmetric ->
      let ts := triplets (mxGetPr W0) (mxGetM W0) in
      let kept := List.filter row_lt_col ts in
      exists el ew,
        make_graph W0 = inr (GraphC_edges el ew (length kept))
        /\ el = List.flat_map endpoints kept
        /\ ew = map weight_of kept
        /\ edges_of el ew = map edge_of_triplet kept
        /\ (forall t, row_ge_col t = true -> ~ In t kept))
  /\ make_graph (triplet_input path_both_ways)
     = inr (GraphC_edges [d_of 1; d_of 0; d_of 2; d_of 1] [one_half; one_half] 2)
  /\ edges_of [d_of 1; d_of 0; d_of 2; d_of 1] [one_half; one_half]
     = [ {| source := d_of 1; target := d_of 0; weight := one_half |};
         {| source := d_of 2; target := d_of 1; weight := one_half |} ].
Proof.
  split; [|split; vm_compute; reflexivity].
  intros W0 HN HM Hshape ts kept.
  exists (List.flat_map endpoints kept), (map weight_of kept).
  rewrite (make_graph_triplet W0 HN HM).
  assert (Hkept : List.filter (emitted (classify (mxGetPr W0) (mxGetM W0))) ts = kept).
  { apply filter_ext_bool. intros t. unfold emitted.
    unfold shape_of_flags in Hshape.
    destruct (isUpperTriangular _); [discriminate Hshape|].
    destruct (isLowerTriangular _); [discriminate Hshape|].
    destruct (isSymmetric _); [reflexivity | discriminate Hshape]. }
  repeat split.
  - rewrite sparse_graph_edges by (rewrite Hshape; discriminate).
    cbv zeta. fold ts. rewrite Hkept, length_map. reflexivity.
  - apply edges_of_endpoints.
  - intros t Hge Hin. apply filter_In in Hin. destruct Hin as [_ Hlt].
    unfold row_ge_col in Hge. unfold row_lt_col in Hlt.
    rewrite (geb_excludes_ltb _ _ Hge) in Hlt. discriminate Hlt.
Qed.

Lemma C5_symmetric_edges_witness :
  exists el ew,
    make_graph (triplet_input path_both_ways) = inr (GraphC_edges el ew 2)
    /\ edges_of el ew
       = [ {| source := d_of 1; target := d_of 0; weight := one_half |};
           {| source := d_of 2; target := d_of 1; weight := one_half |} ].
Proof.
  destruct (proj1 C5_symmetric_edges (triplet_input path_both_ways))
    as (el & ew & Hg & Hel & Hew & Hedges & _).
  - reflexivity.
  - vm_compute. reflexivity.
  - vm_compute. reflexivity.
  - exists el, ew. split.
    + exact Hg.
    + rewrite Hedges. vm_compute. reflexivity.
Defined.

(** C6. For a triplet input of the upper or of the lower triangular shape
    the edge vectors hold every one of the M rows, in the order of the rows,
    each as the edge (column - 1, row - 1, weight) whichever of the two
    shapes it is; no row is left out and the weight is the row's weight. *)
Theorem C6_triangular_edges (W0 : mxArray) :
  mxGetN W0 = 3 -> 3 < mxGetM W0 ->
  shape_of_flags (classify (mxGetPr W0) (mxGetM W0)) = SparseUpperTriangular
  \/ shape_of_flags (classify (mxGetPr W0) (mxGetM W0)) = SparseLowerTriangular ->
  let ts := triplets (mxGetPr W0) (mxGetM W0) in
  exists el ew,
    make_graph W0 = inr (GraphC_edges el ew (Z.to_nat (mxGetM W0)))
    /\ el = List.flat_map endpoints ts
    /\ ew = map weight_of ts
    /\ edges_of el ew = map edge_of_triplet ts
    /\ length (edges_of el ew) = Z.to_nat (mxGetM W0).
Proof.
  intros HN HM Hshape ts.
  exists (List.flat_map endpoints ts), (map weight_of ts).
  rewrite (make_graph_triplet W0 HN HM).
  assert (Hlen : length ts = Z.to_nat (mxGetM W0)).
  { unfold ts, triplets, row_numbers. rewrite length_map, length_seq. reflexivity. }
  assert (Hkept : List.filter (emitted (classify (mxGetPr W0) (mxGetM W0))) ts = ts).
  { rewrite <- (filter_true ts) at 2.
    apply filter_ext_bool. intros t. unfold emitted.
    unfold shape_of_flags in Hshape.
    destruct (isUpperTriangular _); [reflexivity|].
    destruct (isLowerTriangular _); [reflexivity|].
    destruct (isSymmetric _); destruct Hshape as [H|H]; discriminate H. }
  repeat split.
  - rewrite sparse_graph_edges by (destruct Hshape as [H|H]; rewrite H; discriminate).
    cbv zeta. fold ts. rewrite Hkept, length_map, Hlen. reflexivity.
  - apply edges_of_endpoints.
  - rewrite edges_of_endpoints, length_map. exact Hlen.
Qed.

Lemma C6_triangular_edges_witness :
  make_graph (triplet_input upper_only)
  = inr (GraphC_edges
           [d_of 1; d_of 0; d_of 2; d_of 0; d_of 2; d_of 1; d_of 3; d_of 0]
           [one_half; one_half; one_half; one_fifth] 4).
Proof.
  destruct (C6_triangular_edges (triplet_input upper_only))
    as (el & ew & Hg & Hel & Hew & _).
  - reflexivity.
  - vm_compute. reflexivity.
  - left. vm_compute. reflexivity.
  - rewrite Hg, Hel, Hew. vm_compute. reflexivity.
Defined.

(** ** The walk over the (name, value) pairs *)

Lemma string_app_assoc (a b c : string) :
  ((a ++ b) ++ c = a ++ (b ++ c))%string.
Proof.
  induction a as [|x a IH]; simpl; [reflexivity | rewrite IH; reflexivity].
Qed.

Lemma string_app_nil_r (a : string) : (a ++ "" = a)%string.
Proof.
  induction a as [|x a IH]; simpl; [reflexivity | rewrite IH; reflexivity].
Qed.

Lemma add_option_app (pars : InfomapParams) (a b : string) :
  add_option (add_option pars a) b = add_option pars (a ++ b).
Proof.
  unfold add_option. simpl. rewrite string_app_assoc. reflexivity.
Qed.

Lemma add_option_nil (pars : InfomapParams) : add_option pars "" = pars.
Proof.
  unfold add_option. rewrite string_app_nil_r. destruct pars; reflexivity.
Qed.

(** Lists taken two elements at a time. *)
Lemma list_pair_ind {A : Type} (P : list A -> Prop) :
  P [] -> (forall x, P [x]) -> (forall x y l, P l -> P (x :: y :: l)) ->
  forall l, P l.
Proof.
  intros Hnil Hone Hstep l.
  assert (H : P l /\ forall x, P (x :: l)).
  { induction l as [|y l [IH1 IH2]].
    - split; [exact Hnil | exact Hone].
    - split; [apply IH2 | intros x; apply Hstep; exact IH1]. }
  exact (proj1 H).
Qed.

(** One round of the loop on a pair of the right types whose value holds a
    number. *)
Lemma parse_pairs_step (name value : mxArray) (rest : list mxArray)
    (argcount : Z) (pars : InfomapParams) (argposerr : Z)
    (v : double) (vs : list double) :
  mxIsChar name = true -> mxIsChar value = false -> mxGetPr value = v :: vs ->
  parse_pairs (name :: value :: rest) argcount pars argposerr =
    match parse_pair (mxArrayToString name) v with
    | pair_unknown => Some (ERROR_ARG_UNKNOWN, pars, argcount)
    | pair_bad_value => Some (ERROR_ARG_VALUE, pars, argcount + 1)
    | pair_flag text =>
        parse_pairs rest (argcount + 2) (add_option pars text) argposerr
    end.
Proof.
  intros Hname Hvalue Hv.
  cbn [parse_pairs]. rewrite Hname, Hvalue, Hv. cbn [negb andb].
  unfold parse_pair.
  destruct (strcasecmp (mxArrayToString name) "N" =? 0).
  { destruct (Double.ltb v Double.zero); reflexivity. }
  destruct (strcasecmp (mxArrayToString name) "p" =? 0).
  { destruct (Double.ltb v Double.zero || Double.gtb v Double.one); reflexivity. }
  destruct (strcasecmp (mxArrayToString name) "y" =? 0).
  { destruct (Double.ltb v Double.zero || Double.gtb v Double.one); reflexivity. }
  destruct (strcasecmp (mxArrayToString name) "markov-time" =? 0).
  { destruct (Double.ltb v Double.zero); reflexivity. }
  reflexivity.
Qed.

Lemma parse_pairs_wrong_type (name value : mxArray) (rest : list mxArray)
    (argcount : Z) (pars : InfomapParams) (argposerr : Z) :
  mxIsChar name = false \/ mxIsChar value = true ->
  parse_pairs (name :: value :: rest) argcount pars argposerr
  = Some (ERROR_ARG_TYPE, pars, argcount).
Proof.
  intros H. cbn [parse_pairs].
  destruct H as [H|H]; rewrite H; [reflexivity|].
  rewrite andb_false_r. reflexivity.
Qed.

Lemma parse_args_pairs (nOutputArgs : Z) (W : mxArray) (rest : list mxArray)
    (pars : InfomapParams) (argposerr : Z) :
  nOutputArgs <= 2 -> matrix_refused W = false ->
  parse_args nOutputArgs (W :: rest) pars argposerr
  = parse_pairs rest 1 pars argposerr.
Proof.
  intros Hout HW. unfold parse_args.
  replace (Z.of_nat (length (W :: rest)) <? 1) with false
    by (symmetry; apply Z.ltb_ge; simpl length; lia).
  replace (nOutputArgs >? 2) with false
    by (symmetry; rewrite Z.gtb_ltb; apply Z.ltb_ge; lia).
  unfold matrix_refused in HW. cbv zeta. rewrite HW. reflexivity.
Qed.

Lemma parse_pair_flag_text (cpartype : string) (v : double) (text : string) :
  parse_pair cpartype v = pair_flag text ->
  exists o, parameter_of cpartype = Some o
            /\ text = spaced (flag_prefix o ++ Double.to_string v).
Proof.
  unfold parse_pair, parameter_of.
  destruct (strcasecmp cpartype "N" =? 0).
  { destruct (Double.ltb v Double.zero); [discriminate|].
    intros [= <-]. exists par_N. split; reflexivity. }
  destruct (strcasecmp cpartype "p" =? 0).
  { destruct (Double.ltb v Double.zero || Double.gtb v Double.one); [discriminate|].
    intros [= <-]. exists par_p. split; reflexivity. }
  destruct (strcasecmp cpartype "y" =? 0).
  { destruct (Double.ltb v Double.zero || Double.gtb v Double.one); [discriminate|].
    intros [= <-]. exists par_y. split; reflexivity. }
  destruct (strcasecmp cpartype "markov-time" =? 0).
  { destruct (Double.ltb v Double.zero); [discriminate|].
    intros [= <-]. exists par_markov_time. split; reflexivity. }
  discriminate.
Qed.

(** The loop runs through a list of accepted pairs, adds their flags in the
    order of the pairs and goes on with what follows them. *)
Lemma parse_pairs_accepted (pre suf : list mxArray) :
  accepted_pairs pre = true ->
  forall (argcount : Z) (pars : InfomapParams) (argposerr : Z),
    parse_pairs (pre ++ suf) argcount pars argposerr
    = parse_pairs suf (argcount + Z.of_nat (length pre))
        (add_option pars (join_flags (map flag_token (pairs_of pre)))) argposerr.
Proof.
  induction pre as [| x | name value pre IH] using list_pair_ind; intros Hacc.
  - intros argcount pars argposerr. simpl app. simpl length.
    cbn [pairs_of map join_flags fold_right].
    rewrite add_option_nil, Z.add_0_r. reflexivity.
  - discriminate Hacc.
  - cbn [accepted_pairs] in Hacc.
    destruct (mxIsChar name) eqn:Hname; [|discriminate Hacc].
    destruct (mxIsChar value) eqn:Hvalue; [discriminate Hacc|].
    destruct (mxGetPr value) as [|v vs] eqn:Hv; [discriminate Hacc|].
    destruct (parse_pair (mxArrayToString name) v) as [| |text] eqn:Hpair;
      try discriminate Hacc.
    cbn [negb andb] in Hacc.
    intros argcount pars argposerr.
    change ((name :: value :: pre) ++ suf) with (name :: value :: (pre ++ suf)).
    rewrite (parse_pairs_step name value _ _ _ _ v vs Hname Hvalue Hv), Hpair.
    rewrite (IH Hacc).
    destruct (parse_pair_flag_text _ _ _ Hpair) as (o & Ho & ->).
    cbn [pairs_of map]. unfold flag_token at 2. cbn [fst snd]. rewrite Ho, Hv.
    unfold join_flags. cbn [map fold_right]. fold (join_flags (map flag_token (pairs_of pre))).
    rewrite add_option_app.
    f_equal. simpl length. lia.
Qed.

(** A walk that ends without error went through accepted pairs only. *)
Lemma parse_pairs_no_error (args : list mxArray) :
  forall (argcount : Z) (pars pars' : InfomapParams) (argposerr pos' : Z),
    parse_pairs args argcount pars argposerr = Some (NO_ERROR, pars', pos') ->
    accepted_pairs args = true.
Proof.
  induction args as [| x | name value args IH] using list_pair_ind;
    intros argcount pars pars' argposerr pos' H.
  - reflexivity.
  - discriminate H.
  - destruct (mxIsChar name) eqn:Hname;
      [|rewrite parse_pairs_wrong_type in H by (left; exact Hname); discriminate H].
    destruct (mxIsChar value) eqn:Hvalue;
      [rewrite parse_pairs_wrong_type in H by (right; exact Hvalue); discriminate H|].
    destruct (mxGetPr value) as [|v vs] eqn:Hv.
    + cbn [parse_pairs] in H. rewrite Hname, Hvalue, Hv in H. cbn [negb andb] in H.
      repeat match type of H with
             | (if ?c then _ else _) = _ => destruct c; try discriminate H
             end.
    + rewrite (parse_pairs_step name value _ _ _ _ v vs Hname Hvalue Hv) in H.
      cbn [accepted_pairs]. rewrite Hname, Hvalue, Hv. cbn [negb andb].
      destruct (parse_pair (mxArrayToString name) v); try discriminate H.
      exact (IH _ _ _ _ _ H).
Qed.

Lemma length_accepted_pairs (args : list mxArray) :
  accepted_pairs args = true ->
  Z.of_nat (length args) = 2 * Z.of_nat (length (pairs_of args)).
Proof.
  induction args as [| x | name value args IH] using list_pair_ind; intros H.
  - reflexivity.
  - discriminate H.
  - cbn [accepted_pairs] in H.
    apply andb_prop in H. destruct H as [_ H].
    specialize (IH H). cbn [pairs_of length]. lia.
Qed.

(** C4. The walk over the arguments after the matrix starts at position 1
    and takes them two at a time.  After any number of accepted pairs: a lone
    last argument makes the parser fail with the dangling-argument error at
    the position of that argument; a pair whose name is not a character
    array or whose value is one makes it fail with the wrong-type error at
    the position of the pair's first argument. *)
Theorem C4_dangling_and_wrong_type (nOutputArgs : Z) (W : mxArray)
    (pre : list mxArray) (pars : InfomapParams) (argposerr : Z) :
  nOutputArgs <= 2 -> matrix_refused W = false -> accepted_pairs pre = true ->
  let here := 1 + 2 * Z.of_nat (length (pairs_of pre)) in
  let pars' := add_option pars (join_flags (map flag_token (pairs_of pre))) in
  (forall lone : mxArray,
      parse_args nOutputArgs (W :: pre ++ [lone]) pars argposerr
      = Some (ERROR_ARG_EMPTY, pars', here))
  /\ (forall (name value : mxArray) (rest : list mxArray),
         mxIsChar name = false \/ mxIsChar value = true ->
         parse_args nOutputArgs (W :: pre ++ name :: value :: rest) pars argposerr
         = Some (ERROR_ARG_TYPE, pars', here)).
Proof.
  intros Hout HW Hpre here pars'. subst here pars'.
  rewrite <- (length_accepted_pairs pre Hpre).
  split.
  - intros lone.
    rewrite (parse_args_pairs _ _ _ _ _ Hout HW).
    rewrite (parse_pairs_accepted pre [lone] Hpre). reflexivity.
  - intros name value rest Htype.
    rewrite (parse_args_pairs _ _ _ _ _ Hout HW).
    rewrite (parse_pairs_accepted pre _ Hpre).
    apply parse_pairs_wrong_type. exact Htype.
Qed.

Lemma C4_dangling_and_wrong_type_witness :
  parse_args 2 [triplet_input path_both_ways; name_arg "N"; value_arg (d_of 5);
                name_arg "p"] no_options (-1)
  = Some (ERROR_ARG_EMPTY, {| options := " -N5.000000 " |}, 3)
  /\ parse_args 2 [triplet_input path_both_ways; name_arg "N"; value_arg (d_of 5);
                   value_arg (d_of 1); value_arg (d_of 2)] no_options (-1)
     = Some (ERROR_ARG_TYPE, {| options := " -N5.000000 " |}, 3).
Proof.
  assert (Hout : 2 <= 2) by lia.
  assert (HW : matrix_refused (triplet_input path_both_ways) = false)
    by (vm_compute; reflexivity).
  assert (Hpre : accepted_pairs [name_arg "N"; value_arg (d_of 5)] = true)
    by (vm_compute; reflexivity).
  destruct (C4_dangling_and_wrong_type 2 (triplet_input path_both_ways)
              [name_arg "N"; value_arg (d_of 5)] no_options (-1) Hout HW Hpre)
    as [Hlone Htype].
  split.
  - exact (Hlone (name_arg "p")).
  - exact (Htype (value_arg (d_of 1)) (value_arg (d_of 2)) [] (or_introl eq_refl)).
Defined.

(** C3, at a value that is not a number.  A NaN is outside every documented
    range, yet the parser accepts it for each of the four names, emits its
    flag and goes on: the range tests are written as [v < 0] and [v > 1],
    which a NaN does not satisfy. *)
Theorem C3_nan_value_is_accepted (o : parameter) :
  in_documented_range o Double.nan = false
  /\ parse_pair (parameter_name o) Double.nan
     = pair_flag (spaced (flag_prefix o ++ "nan"))
  /\ parse_args 2 [triplet_input path_both_ways;
                   name_arg (parameter_name o); value_arg Double.nan]
       no_options (-1)
     = Some (NO_ERROR, {| options := spaced (flag_prefix o ++ "nan") |}, -1).
Proof.
  destruct o; repeat split; vm_compute; reflexivity.
Qed.

(** ** The dense input *)

Lemma square_not_refused (W0 : mxArray) :
  mxGetM W0 = mxGetN W0 ->
  mxIsComplex W0 = false -> mxIsEmpty W0 = false ->
  mxIsNumeric W0 = true -> mxIsCell W0 = false ->
  matrix_refused W0 = false.
Proof.
  intros HMN Hc He Hn Hcell. unfold matrix_refused.
  rewrite HMN, Hc, He, Hn, Hcell, Z.eqb_refl.
  destruct (Z.eqb_spec (mxGetN W0) 3) as [E|E]; [rewrite E|]; reflexivity.
Qed.

Lemma square_make_graph (W0 : mxArray) :
  mxGetM W0 = mxGetN W0 ->
  make_graph W0 = inr (GraphC_dense (mxGetPr W0) (mxGetN W0) (mxGetN W0)).
Proof.
  intros HMN. unfold make_graph. rewrite HMN.
  destruct (Z.eqb_spec (mxGetN W0) 3) as [E|E].
  - rewrite E. reflexivity.
  - rewrite andb_false_r. reflexivity.
Qed.

Lemma mexFunction_no_error (infomap : graph_args -> string -> exception + engine_output)
    (nOutputArgs : Z) (W0 : mxArray) (args : list mxArray)
    (pars : InfomapParams) (pos : Z) :
  parse_args nOutputArgs (W0 :: args) no_options (-1) = Some (NO_ERROR, pars, pos) ->
  mexFunction infomap nOutputArgs (W0 :: args) = finish (try_block infomap W0 pars).
Proof.
  intros H. unfold mexFunction. fold no_options. rewrite H. reflexivity.
Qed.

(** C9. The checks on a dense input look at its shape and kind only.  A
    square matrix that is not complex, not empty, numeric and not a cell
    array passes them whatever its values: the parser goes on to the pairs,
    the whole buffer is handed to the graph constructor as it is, and
    replacing the values changes neither; no test of symmetry is made. *)
Theorem C9_dense_validation (nOutputArgs : Z) (W0 : mxArray) :
  mxGetM W0 = mxGetN W0 ->
  mxIsComplex W0 = false -> mxIsEmpty W0 = false ->
  mxIsNumeric W0 = true -> mxIsCell W0 = false ->
  nOutputArgs <= 2 ->
  parse_args nOutputArgs [W0] no_options (-1) = Some (NO_ERROR, no_options, -1)
  /\ (forall (args : list mxArray) (pars : InfomapParams) (pos : Z),
         parse_args nOutputArgs (W0 :: args) pars pos = parse_pairs args 1 pars pos)
  /\ make_graph W0 = inr (GraphC_dense (mxGetPr W0) (mxGetN W0) (mxGetN W0))
  /\ (forall infomap : graph_args -> string -> exception + engine_output,
         mexFunction infomap nOutputArgs [W0]
         = after_engine (infomap (GraphC_dense (mxGetPr W0) (mxGetN W0) (mxGetN W0))
                           "--two-level"%string))
  /\ (forall (data : list double) (args : list mxArray) (pars : InfomapParams) (pos : Z),
         parse_args nOutputArgs (with_values W0 data :: args) pars pos
         = parse_args nOutputArgs (W0 :: args) pars pos
         /\ make_graph (with_values W0 data)
            = inr (GraphC_dense data (mxGetN W0) (mxGetN W0))).
Proof.
  intros HMN Hc He Hn Hcell Hout.
  pose proof (square_not_refused W0 HMN Hc He Hn Hcell) as HW.
  assert (Hparse : forall args pars pos,
             parse_args nOutputArgs (W0 :: args) pars pos = parse_pairs args 1 pars pos)
    by (intros; apply parse_args_pairs; assumption).
  repeat split.
  - rewrite Hparse. reflexivity.
  - exact Hparse.
  - exact (square_make_graph W0 HMN).
  - intros infomap.
    rewrite (mexFunction_no_error infomap nOutputArgs W0 [] no_options (-1))
      by (rewrite Hparse; reflexivity).
    unfold try_block, after_engine. rewrite (square_make_graph W0 HMN). reflexivity.
  - exact (square_make_graph (with_values W0 data) HMN).
Qed.

Lemma C9_dense_validation_witness :
  parse_args 2 [not_symmetric_2x2] no_options (-1) = Some (NO_ERROR, no_options, -1)
  /\ make_graph not_symmetric_2x2
     = inr (GraphC_dense [d_of 0; d_of 0; d_of 1; d_of 0] 2 2).
Proof.
  destruct (C9_dense_validation 2 not_symmetric_2x2) as (Hp & _ & Hg & _).
  - reflexivity.
  - reflexivity.
  - reflexivity.
  - reflexivity.
  - reflexivity.
  - lia.
  - split; [exact Hp | exact Hg].
Defined.

(** ** The configuration string *)

Lemma parse_args_no_error (nOutputArgs : Z) (W0 : mxArray) (args : list mxArray)
    (pars pars' : InfomapParams) (pos pos' : Z) :
  parse_args nOutputArgs (W0 :: args) pars pos = Some (NO_ERROR, pars', pos') ->
  parse_pairs args 1 pars pos = Some (NO_ERROR, pars', pos').
Proof.
  unfold parse_args. cbv zeta.
  destruct (Z.of_nat (length (W0 :: args)) <? 1); [discriminate|].
  destruct (nOutputArgs >? 2); [discriminate|].
  match goal with
  | |- (if ?c then _ else _) = _ -> _ => destruct c; [discriminate|]
  end.
  intros H. exact H.
Qed.

Lemma options_of_parsed (nOutputArgs : Z) (W0 : mxArray) (args : list mxArray)
    (pars : InfomapParams) (pos : Z) :
  parse_args nOutputArgs (W0 :: args) no_options (-1) = Some (NO_ERROR, pars, pos) ->
  options pars = join_flags (map flag_token (pairs_of args)).
Proof.
  intros H. apply parse_args_no_error in H.
  pose proof (parse_pairs_no_error _ _ _ _ _ _ H) as Hacc.
  pose proof (parse_pairs_accepted args [] Hacc 1 no_options (-1)) as Hrun.
  rewrite app_nil_r in Hrun. rewrite Hrun in H. cbn [parse_pairs] in H.
  injection H as <- _. reflexivity.
Qed.

(** After a parse without error the collaborators are called once, with
    the graph arguments and the configuration string. *)
Lemma mexFunction_parsed (infomap : graph_args -> string -> exception + engine_output)
    (nOutputArgs : Z) (W0 : mxArray) (args : list mxArray)
    (pars : InfomapParams) (pos : Z) (G : graph_args) :
  parse_args nOutputArgs (W0 :: args) no_options (-1) = Some (NO_ERROR, pars, pos) ->
  make_graph W0 = inr G ->
  mexFunction infomap nOutputArgs (W0 :: args)
  = after_engine (infomap G (configuration args)).
Proof.
  intros H HG.
  rewrite (mexFunction_no_error infomap _ _ _ _ _ H).
  unfold try_block, after_engine. rewrite HG. cbv zeta.
  unfold add_option, configuration. cbn [options].
  rewrite (options_of_parsed _ _ _ _ _ H). reflexivity.
Qed.

(** C7. When the arguments parse without error, the option string holds the
    flag tokens of the pairs in the order of the arguments, each between two
    spaces, and the string handed to the engine is that string followed by
    the fixed flag --two-level, which is appended whatever the arguments.
    For ("N", 5, "p", 0.2) the string holds -N5 before -p0.2 and ends
    with --two-level. *)
Theorem C7_configuration_string :
  (forall (nOutputArgs : Z) (W0 : mxArray) (args : list mxArray)
          (pars : InfomapParams) (pos : Z),
      parse_args nOutputArgs (W0 :: args) no_options (-1)
      = Some (NO_ERROR, pars, pos) ->
      options pars = join_flags (map flag_token (pairs_of args))
      /\ options (add_option pars "--two-level") = configuration args
      /\ (forall (infomap : graph_args -> string -> exception + engine_output)
                 (G : graph_args),
             make_graph W0 = inr G ->
             mexFunction infomap nOutputArgs (W0 :: args)
             = after_engine (infomap G (configuration args))))
  /\ configuration [name_arg "N"; value_arg (d_of 5);
                    name_arg "p"; value_arg one_fifth]
     = (" " ++ "-N5" ++ ".000000  " ++ "-p0.2" ++ "00000 " ++ "--two-level")%string
  /\ parse_args 2 [triplet_input path_both_ways; name_arg "N"; value_arg (d_of 5);
                   name_arg "p"; value_arg one_fifth] no_options (-1)
     = Some (NO_ERROR, {| options := " -N5.000000  -p0.200000 " |}, -1).
Proof.
  split; [|split; vm_compute; reflexivity].
  intros nOutputArgs W0 args pars pos H.
  pose proof (options_of_parsed _ _ _ _ _ H) as Hopt.
  repeat split.
  - exact Hopt.
  - unfold add_option, configuration. cbn [options]. rewrite Hopt. reflexivity.
  - intros infomap G HG. exact (mexFunction_parsed infomap _ _ _ _ _ G H HG).
Qed.

Lemma C7_configuration_string_witness :
  mexFunction sample_engine 2 [not_symmetric_2x2; name_arg "N"; value_arg (d_of 5);
                               name_arg "p"; value_arg one_fifth]
  = after_engine (sample_engine (GraphC_dense [d_of 0; d_of 0; d_of 1; d_of 0] 2 2)
                    " -N5.000000  -p0.200000 --two-level"%string).
Proof.
  assert (H : parse_args 2 [not_symmetric_2x2; name_arg "N"; value_arg (d_of 5);
                            name_arg "p"; value_arg one_fifth] no_options (-1)
              = Some (NO_ERROR, {| options := " -N5.000000  -p0.200000 " |}, -1))
    by (vm_compute; reflexivity).
  destruct (proj1 C7_configuration_string _ _ _ _ _ H) as (_ & _ & Hrun).
  exact (Hrun sample_engine _ eq_refl).
Defined.

(** ** The membership vector *)

Lemma fill_membership_length (ls : list leaf) :
  forall membership membership' : list double,
    fill_membership ls membership = inr membership' ->
    length membership' = length membership.
Proof.
  induction ls as [|lf ls IH]; intros membership membership' H; simpl in H.
  - injection H as <-. reflexivity.
  - destruct (originalLeafIndex lf <? length membership)%nat; [|discriminate H].
    rewrite (IH _ _ H). apply length_insert.
Qed.

Lemma fill_membership_in_range (ls : list leaf) :
  forall membership : list double,
    Forall (fun lf => (originalLeafIndex lf < length membership)%nat) ls ->
    exists membership',
      fill_membership ls membership = inr membership'
      /\ forall i : nat,
          membership' !! i =
            match last_cluster ls i with
            | Some c => Some (Double.of_Z (Z.of_nat c))
            | None => membership !! i
            end.
Proof.
  induction ls as [|lf ls IH]; intros membership Hall.
  - exists membership. split; reflexivity.
  - apply Forall_cons in Hall. destruct Hall as [Hlf Hall].
    destruct (IH (<[originalLeafIndex lf := Double.of_Z (Z.of_nat (parentIndex lf))]>
                    membership)) as (m' & Hfill & Hlook).
    { rewrite length_insert. exact Hall. }
    exists m'. split.
    + simpl. apply Nat.ltb_lt in Hlf. rewrite Hlf. exact Hfill.
    + intros i. rewrite Hlook. simpl.
      destruct (last_cluster ls i); [reflexivity|].
      destruct (Nat.eqb_spec (originalLeafIndex lf) i) as [E|E].
      * subst i. apply list_lookup_insert_eq. exact Hlf.
      * apply list_lookup_insert_ne. exact E.
Qed.

Lemma fill_membership_out_of_range (ls : list leaf) :
  forall membership : list double,
    Exists (fun lf => (length membership <= originalLeafIndex lf)%nat) ls ->
    exists n : nat,
      (length membership <= n)%nat
      /\ fill_membership ls membership = inl (out_of_range n (length membership)).
Proof.
  induction ls as [|lf ls IH]; intros membership Hex.
  - apply Exists_nil in Hex. destruct Hex.
  - simpl. destruct (Nat.ltb_spec (originalLeafIndex lf) (length membership)) as [Hlt|Hge].
    + apply Exists_cons in Hex. destruct Hex as [Hbad|Hex]; [lia|].
      destruct (IH (<[originalLeafIndex lf := Double.of_Z (Z.of_nat (parentIndex lf))]>
                      membership)) as (n & Hn & Hfill).
      { rewrite length_insert. exact Hex. }
      rewrite length_insert in Hn, Hfill. exists n. split; assumption.
    + exists (originalLeafIndex lf). split; [exact Hge | reflexivity].
Qed.

Lemma last_cluster_last (before after : list leaf) (lf : leaf) :
  Forall (fun lf' => originalLeafIndex lf' <> originalLeafIndex lf) after ->
  last_cluster (before ++ lf :: after) (originalLeafIndex lf) = Some (parentIndex lf).
Proof.
  intros Hafter.
  assert (Hnone : last_cluster after (originalLeafIndex lf) = None).
  { induction after as [|x after IH]; [reflexivity|].
    apply Forall_cons in Hafter. destruct Hafter as [Hx Hafter].
    simpl. rewrite (IH Hafter).
    destruct (Nat.eqb_spec (originalLeafIndex x) (originalLeafIndex lf)); [contradiction|].
    reflexivity. }
  induction before as [|x before IH]; simpl.
  - rewrite Hnone, Nat.eqb_refl. reflexivity.
  - rewrite IH. reflexivity.
Qed.

(** C8. Once the engine has answered, the membership vector has one entry
    per node of the graph, and every leaf sets the entry of its original
    index to its cluster index (the last leaf of an index decides); the
    second output is the codelength of the engine as it is.  A leaf whose
    original index is not below the number of nodes ends the call with an
    error message and no output, and nothing is written outside the vector.
    The leaves (2,0), (0,1), (1,1) over three nodes give [1, 1, 0]. *)
Theorem C8_result_mapping :
  (forall (infomap : graph_args -> string -> exception + engine_output)
          (nOutputArgs : Z) (W0 : mxArray) (args : list mxArray)
          (pars : InfomapParams) (pos : Z) (G : graph_args)
          (result : engine_output),
      parse_args nOutputArgs (W0 :: args) no_options (-1)
      = Some (NO_ERROR, pars, pos) ->
      make_graph W0 = inr G ->
      infomap G (configuration args) = inr result ->
      let N := number_of_nodes result in
      let run := mexFunction infomap nOutputArgs (W0 :: args) in
      (Forall (fun lf => (originalLeafIndex lf < N)%nat) (leaves result) ->
       exists membership : list double,
         run = {| printed := [];
                  completed := returned membership (codelength result) |}
         /\ length membership = N
         /\ (forall i : nat, (i < N)%nat ->
               membership !! i =
                 Some match last_cluster (leaves result) i with
                      | Some c => Double.of_Z (Z.of_nat c)
                      | None => Double.zero
                      end)
         /\ (forall (before after : list leaf) (lf : leaf),
               leaves result = before ++ lf :: after ->
               Forall (fun lf' => originalLeafIndex lf' <> originalLeafIndex lf) after ->
               membership !! originalLeafIndex lf
               = Some (Double.of_Z (Z.of_nat (parentIndex lf)))))
      /\ (Exists (fun lf => (N <= originalLeafIndex lf)%nat) (leaves result) ->
          exists n : nat,
            (N <= n)%nat
            /\ completed run = mexErrMsgTxt (what (out_of_range n N))))
  /\ read_result {| number_of_nodes := 3; leaves := sample_leaves;
                    codelength := one_half |}
     = inr ([d_of 1; d_of 1; d_of 0], one_half).
Proof.
  split; [|vm_compute; reflexivity].
  intros infomap nOutputArgs W0 args pars pos G result Hparse HG Hengine N run.
  assert (Hrun : run = finish (read_result result)).
  { unfold run.
    rewrite (mexFunction_parsed infomap _ _ _ _ _ G Hparse HG).
    unfold after_engine. rewrite Hengine. reflexivity. }
  split.
  - intros Hall.
    destruct (fill_membership_in_range (leaves result) (replicate N Double.zero))
      as (m & Hfill & Hlook).
    { rewrite length_replicate. exact Hall. }
    exists m. rewrite Hrun. unfold read_result. fold N. rewrite Hfill.
    repeat split.
    + rewrite (fill_membership_length _ _ _ Hfill). apply length_replicate.
    + intros i Hi. rewrite Hlook.
      destruct (last_cluster (leaves result) i); [reflexivity|].
      apply lookup_replicate_2. exact Hi.
    + intros before after lf Hsplit Hafter.
      rewrite Hlook, Hsplit, (last_cluster_last before after lf Hafter). reflexivity.
  - intros Hex.
    destruct (fill_membership_out_of_range (leaves result) (replicate N Double.zero))
      as (n & Hn & Hfill).
    { rewrite length_replicate. exact Hex. }
    rewrite length_replicate in Hn, Hfill.
    exists n. split; [exact Hn|].
    rewrite Hrun. unfold read_result. fold N. rewrite Hfill. reflexivity.
Qed.

Lemma C8_result_mapping_witness :
  exists membership : list double,
    mexFunction sample_engine 2 [triplet_input path_both_ways]
    = {| printed := []; completed := returned membership one_half |}
    /\ membership !! 2%nat = Some (d_of 0).
Proof.
  assert (Hparse : parse_args 2 [triplet_input path_both_ways] no_options (-1)
                   = Some (NO_ERROR, no_options, -1)) by (vm_compute; reflexivity).
  assert (HG : make_graph (triplet_input path_both_ways)
               = inr (GraphC_edges [d_of 1; d_of 0; d_of 2; d_of 1]
                        [one_half; one_half] 2)) by (vm_compute; reflexivity).
  assert (Hengine : sample_engine (GraphC_edges [d_of 1; d_of 0; d_of 2; d_of 1]
                                     [one_half; one_half] 2) (configuration [])
                    = inr {| number_of_nodes := 3; leaves := sample_leaves;
                             codelength := one_half |}) by reflexivity.
  destruct (proj1 C8_result_mapping sample_engine 2 (triplet_input path_both_ways) []
              no_options (-1) _ _ Hparse HG Hengine) as [Hin _].
  destruct Hin as (membership & Hrun & _ & Hlook & _).
  - unfold sample_leaves. cbn [number_of_nodes leaves].
    repeat constructor.
  - exists membership. split; [exact Hrun|].
    rewrite (Hlook 2%nat) by (cbn [number_of_nodes]; lia).
    vm_compute. reflexivity.
Defined.

(** ** How a call reports an error *)

Lemma not_symmetric_is_no_argument_error (pos : Z) (err : error_type) :
  not_symmetric_nor_triangular <> error_message pos err.
Proof.
  unfold not_symmetric_nor_triangular, error_message. simpl. discriminate.
Qed.

Lemma sparse_graph_invalid (W : list double) (M : Z) :
  shape_of_flags (classify W M) = SparseInvalid ->
  sparse_graph W M = inl (logic_error not_symmetric_nor_triangular).
Proof.
  unfold sparse_graph, shape_of_flags. cbv zeta.
  destruct (isUpperTriangular (classify W M)); [discriminate|].
  destruct (isLowerTriangular (classify W M)); [discriminate|].
  destruct (isSymmetric (classify W M)); [discriminate|].
  reflexivity.
Qed.


(** ** The text of a value *)


Lemma all_chars_impl (p q : ascii -> bool) (s : string) :
  (forall c, p c = true -> q c = true) ->
  all_chars p s = true -> all_chars q s = true.
Proof.
  intros Hpq. induction s as [|c s IH]; simpl; [reflexivity|].
  intros H. apply andb_prop in H. destruct H as [Hc Hs].
  rewrite (Hpq c Hc), (IH Hs). reflexivity.
Qed.





Lemma uint_digits (u : Decimal.uint) :
  all_chars is_digit (NilEmpty.string_of_uint u) = true.
Proof.
  induction u; simpl; try rewrite IHu; reflexivity.
Qed.









(** ** The words of the configuration string *)











(** ** The names and the ranges in the words of the specification *)

Lemma char_code_inj (a b : ascii) : char_code a = char_code b -> a = b.
Proof.
  unfold char_code. intros H. apply Nat2Z.inj in H.
  rewrite <- (ascii_nat_embedding a), <- (ascii_nat_embedding b), H. reflexivity.
Qed.

Lemma tolower_not_nul (c : ascii) :
  not_nul c = true -> char_code (tolower c) <> 0.
Proof.
  destruct c as [[] [] [] [] [] [] [] []]; intros H; try discriminate H;
    vm_compute; discriminate.
Qed.

(** [strcasecmp] answers 0 exactly on two names that are equal up to the
    case of their letters (a C string holds no NUL character). *)
Lemma strcasecmp_same_name (s : string) :
  forall t : string,
    all_chars not_nul s = true -> all_chars not_nul t = true ->
    (strcasecmp s t = 0 <-> same_name s t).
Proof.
  unfold same_name.
  induction s as [|c s IH]; intros [|d t] Hs Ht; simpl in *.
  - split; reflexivity.
  - apply andb_prop in Ht. destruct Ht as [Hd _].
    pose proof (tolower_not_nul d Hd). split; [lia | discriminate].
  - apply andb_prop in Hs. destruct Hs as [Hc _].
    pose proof (tolower_not_nul c Hc). split; [lia | discriminate].
  - apply andb_prop in Hs. destruct Hs as [_ Hs].
    apply andb_prop in Ht. destruct Ht as [_ Ht].
    destruct (Ascii.eqb_spec (tolower c) (tolower d)) as [E|E].
    + rewrite E, (IH t Hs Ht). split; [intros ->; reflexivity | intros [= H]; exact H].
    + split.
      * intros H. exfalso. apply E. apply char_code_inj. lia.
      * intros [= H _]. contradiction.
Qed.

Lemma compare_of_numbers (x y : spec_float) :
  Double.is_nan x = false -> Double.is_nan y = false ->
  exists c : comparison, SFcompare x y = Some c.
Proof.
  destruct x as [sx|sx| |sx mx ex], y as [sy|sy| |sy my ey];
    try discriminate; intros _ _; simpl; eauto.
Qed.

Lemma ltb_is_not_geb (x y : double) :
  Double.is_nan x = false -> Double.is_nan y = false ->
  Double.ltb x y = negb (Double.geb x y).
Proof.
  intros Hx Hy. unfold Double.ltb, Double.geb, SFltb, SFleb.
  rewrite (SFcompare_antisym x y).
  destruct (compare_of_numbers x y Hx Hy) as [c ->].
  destruct c; reflexivity.
Qed.

(** On a value that is a number the range tests of the code are the
    documented ranges: at least 0 for [N] and [markov-time], between 0 and 1
    for [p] and [y]. *)
Lemma parse_pair_of_number (cpartype : string) (v : double) :
  Double.is_nan v = false ->
  parse_pair cpartype v =
    match parameter_of cpartype with
    | None => pair_unknown
    | Some o =>
        if in_documented_range o v
        then pair_flag (spaced (flag_prefix o ++ Double.to_string v))
        else pair_bad_value
    end.
Proof.
  intros Hv.
  assert (H0 : Double.ltb v Double.zero = negb (Double.geb v Double.zero))
    by (apply ltb_is_not_geb; [exact Hv | reflexivity]).
  assert (H1 : Double.gtb v Double.one = negb (Double.geb Double.one v))
    by (apply (ltb_is_not_geb Double.one v); [reflexivity | exact Hv]).
  unfold parse_pair, parameter_of, in_documented_range.
  rewrite H0, H1.
  repeat match goal with
         | |- context [strcasecmp cpartype ?n =? 0] =>
             destruct (strcasecmp cpartype n =? 0)
         end;
    try reflexivity;
    destruct (Double.geb v Double.zero); cbn [negb orb andb]; try reflexivity;
    destruct (Double.geb Double.one v); reflexivity.
Qed.

(** One round of the loop on a pair of the right types whose value is a
    number: an unknown name fails at the name, a value outside the
    documented range fails at the value, and otherwise the walk goes on two
    positions further with the flag added. *)
Lemma parse_pairs_of_number (name value : mxArray) (rest : list mxArray)
    (argcount : Z) (pars : InfomapParams) (argposerr : Z)
    (v : double) (vs : list double) :
  mxIsChar name = true -> mxIsChar value = false ->
  mxGetPr value = v :: vs -> Double.is_nan v = false ->
  parse_pairs (name :: value :: rest) argcount pars argposerr =
    match parameter_of (mxArrayToString name) with
    | None => Some (ERROR_ARG_UNKNOWN, pars, argcount)
    | Some o =>
        if in_documented_range o v
        then parse_pairs rest (argcount + 2)
               (add_option pars (spaced (flag_prefix o ++ Double.to_string v)))
               argposerr
        else Some (ERROR_ARG_VALUE, pars, argcount + 1)
    end.
Proof.
  intros Hname Hvalue Hdata Hv.
  rewrite (parse_pairs_step name value rest argcount pars argposerr v vs
             Hname Hvalue Hdata).
  rewrite (parse_pair_of_number _ v Hv).
  destruct (parameter_of (mxArrayToString name)) as [o|]; [|reflexivity].
  destruct (in_documented_range o v); reflexivity.
Qed.

(** The parameter of a name is the one whose name it is up to case. *)
Lemma parameter_of_same_name (cpartype : string) (o : parameter) :
  all_chars not_nul cpartype = true ->
  parameter_of cpartype = Some o -> same_name cpartype (parameter_name o).
Proof.
  intros Hs. unfold parameter_of.
  destruct (Z.eqb_spec (strcasecmp cpartype "N") 0) as [E|_].
  { intros [= <-]. apply strcasecmp_same_name; [exact Hs | reflexivity | exact E]. }
  destruct (Z.eqb_spec (strcasecmp cpartype "p") 0) as [E|_].
  { intros [= <-]. apply strcasecmp_same_name; [exact Hs | reflexivity | exact E]. }
  destruct (Z.eqb_spec (strcasecmp cpartype "y") 0) as [E|_].
  { intros [= <-]. apply strcasecmp_same_name; [exact Hs | reflexivity | exact E]. }
  destruct (Z.eqb_spec (strcasecmp cpartype "markov-time") 0) as [E|_].
  { intros [= <-]. apply strcasecmp_same_name; [exact Hs | reflexivity | exact E]. }
  discriminate.
Qed.

Lemma parameter_of_unknown (cpartype : string) :
  all_chars not_nul cpartype = true ->
  parameter_of cpartype = None ->
  forall o : parameter, ~ same_name cpartype (parameter_name o).
Proof.
  intros Hs. unfold parameter_of.
  destruct (Z.eqb_spec (strcasecmp cpartype "N") 0) as [|EN]; [discriminate|].
  destruct (Z.eqb_spec (strcasecmp cpartype "p") 0) as [|Ep]; [discriminate|].
  destruct (Z.eqb_spec (strcasecmp cpartype "y") 0) as [|Ey]; [discriminate|].
  destruct (Z.eqb_spec (strcasecmp cpartype "markov-time") 0) as [|Em]; [discriminate|].
  intros _ o Hsame.
  destruct o; apply strcasecmp_same_name in Hsame; try exact Hs; try reflexivity;
    contradiction.
Qed.

(** * Further properties of the adapter *)

(** ** The parser: which error, and where *)

(** A pair of the right types whose value holds no real data: the branches
    of the four names read the value before anything else, the last branch
    does not read it. *)
Lemma parse_pairs_no_data (name value : mxArray) (rest : list mxArray)
    (argcount : Z) (pars : InfomapParams) (argposerr : Z) :
  mxIsChar name = true -> mxIsChar value = false -> mxGetPr value = [] ->
  parse_pairs (name :: value :: rest) argcount pars argposerr =
    match parameter_of (mxArrayToString name) with
    | Some _ => None
    | None => Some (ERROR_ARG_UNKNOWN, pars, argcount)
    end.
Proof.
  intros Hname Hvalue Hdata.
  cbn [parse_pairs]. rewrite Hname, Hvalue, Hdata. cbn [negb andb].
  unfold parameter_of.
  repeat match goal with
         | |- context [strcasecmp ?a ?n =? 0] => destruct (strcasecmp a n =? 0)
         end; reflexivity.
Qed.

Lemma parse_pairs_position (args : list mxArray) :
  forall (argcount : Z) (pars pars' : InfomapParams) (argposerr pos' : Z)
         (err : error_type),
    parse_pairs args argcount pars argposerr = Some (err, pars', pos') ->
    if error_type_eqb err NO_ERROR
    then pos' = argposerr /\ Nat.Even (length args)
    else pair_error err = true
         /\ argcount <= pos' < argcount + Z.of_nat (length args).
Proof.
  induction args as [| x | name value args IH] using list_pair_ind;
    intros argcount pars pars' argposerr pos' err H.
  - injection H as <- _ <-. split; [reflexivity | exists 0%nat; reflexivity].
  - injection H as <- _ <-. simpl. split; [reflexivity | lia].
  - assert (Hlen : Z.of_nat (length (name :: value :: args))
                   = 2 + Z.of_nat (length args)) by (simpl length; lia).
    rewrite Hlen.
    destruct (mxIsChar name) eqn:Hname;
      [|rewrite parse_pairs_wrong_type in H by (left; exact Hname);
        injection H as <- _ <-; simpl; split; [reflexivity | lia]].
    destruct (mxIsChar value) eqn:Hvalue;
      [rewrite parse_pairs_wrong_type in H by (right; exact Hvalue);
       injection H as <- _ <-; simpl; split; [reflexivity | lia]|].
    destruct (mxGetPr value) as [|v vs] eqn:Hdata.
    + rewrite (parse_pairs_no_data name value args _ _ _ Hname Hvalue Hdata) in H.
      destruct (parameter_of (mxArrayToString name)); [discriminate H|].
      injection H as <- _ <-. simpl. split; [reflexivity | lia].
    + rewrite (parse_pairs_step name value args _ _ _ v vs Hname Hvalue Hdata) in H.
      destruct (parse_pair (mxArrayToString name) v) as [| |text].
      * injection H as <- _ <-. simpl. split; [reflexivity | lia].
      * injection H as <- _ <-. simpl. split; [reflexivity | lia].
      * specialize (IH _ _ _ _ _ _ H).
        destruct (error_type_eqb err NO_ERROR).
        -- destruct IH as [Hpos [n Hn]]. split; [exact Hpos|].
           exists (S n). simpl length. lia.
        -- destruct IH as [Herr Hpos]. split; [exact Herr | lia].
Qed.

Lemma parse_args_cases (nOutputArgs : Z) (inputArgs : list mxArray)
    (pars : InfomapParams) (argposerr : Z) :
  parse_args nOutputArgs inputArgs pars argposerr =
    match inputArgs with
    | [] => Some (ERROR_NOT_ENOUGH_ARGS, pars, 0)
    | W :: rest =>
        if nOutputArgs >? 2 then Some (ERROR_TOO_MANY_OUTPUT_ARGS, pars, 0)
        else if matrix_refused W then Some (ERROR_MATRIX, pars, 0)
        else parse_pairs rest 1 pars argposerr
    end.
Proof.
  unfold parse_args. cbv zeta.
  destruct inputArgs as [|W rest]; [reflexivity|].
  replace (Z.of_nat (length (W :: rest)) <? 1) with false
    by (symmetry; apply Z.ltb_ge; simpl length; lia).
  reflexivity.
Qed.

Lemma parse_pairs_error_kind (args : list mxArray) (argcount : Z)
    (pars pars' : InfomapParams) (argposerr pos' : Z) (err : error_type) :
  parse_pairs args argcount pars argposerr = Some (err, pars', pos') ->
  err = NO_ERROR \/ pair_error err = true.
Proof.
  intros H. apply parse_pairs_position in H.
  destruct err; simpl in H; try (left; reflexivity); right; apply H.
Qed.

(** X2. The three errors that come before the walk are decided by the number
    of arguments, the number of outputs and the matrix alone, in that order,
    and by nothing that follows the matrix: no input gives the
    not-enough-arguments error even when too many outputs are asked; more
    than two outputs give the too-many-outputs error whatever the matrix; a
    refused matrix gives the matrix error whatever the pairs.  The walk
    itself returns none of the three. *)
Theorem parse_args_leading_errors (nOutputArgs : Z) (inputArgs : list mxArray)
    (pars pars' : InfomapParams) (argposerr pos' : Z) :
  (parse_args nOutputArgs inputArgs pars argposerr
   = Some (ERROR_NOT_ENOUGH_ARGS, pars', pos')
   <-> inputArgs = [] /\ pars' = pars /\ pos' = 0)
  /\ (parse_args nOutputArgs inputArgs pars argposerr
      = Some (ERROR_TOO_MANY_OUTPUT_ARGS, pars', pos')
      <-> inputArgs <> [] /\ 2 < nOutputArgs /\ pars' = pars /\ pos' = 0)
  /\ (parse_args nOutputArgs inputArgs pars argposerr
      = Some (ERROR_MATRIX, pars', pos')
      <-> exists (W : mxArray) (rest : list mxArray),
            inputArgs = W :: rest /\ nOutputArgs <= 2
            /\ matrix_refused W = true /\ pars' = pars /\ pos' = 0).
Proof.
  rewrite parse_args_cases.
  destruct inputArgs as [|W rest].
  - split; [|split].
    + split.
      * intros [= <- <-]. repeat split.
      * intros (_ & -> & ->). reflexivity.
    + split; [discriminate | intros (H & _); contradiction].
    + split; [discriminate | intros (W & rest & H & _); discriminate H].
  - destruct (Z.gtb_spec nOutputArgs 2) as [Hout|Hout].
    { split; [|split].
      + split; [discriminate | intros (H & _); discriminate H].
      + split.
        * intros [= <- <-]. repeat split; [discriminate | exact Hout].
        * intros (_ & _ & -> & ->). reflexivity.
      + split; [discriminate | intros (W' & rest' & _ & H & _); lia]. }
    destruct (matrix_refused W) eqn:HW.
    { split; [|split].
      + split; [discriminate | intros (H & _); discriminate H].
      + split; [discriminate | intros (_ & H & _); lia].
      + split.
        * intros [= <- <-]. exists W, rest. repeat split; [exact Hout | exact HW].
        * intros (W' & rest' & _ & _ & _ & -> & ->). reflexivity. }
    split; [|split].
    + split.
      * intros H. apply parse_pairs_error_kind in H.
        destruct H as [H|H]; discriminate H.
      * intros (H & _). discriminate H.
    + split.
      * intros H. apply parse_pairs_error_kind in H.
        destruct H as [H|H]; discriminate H.
      * intros (_ & H & _). lia.
    + split.
      * intros H. apply parse_pairs_error_kind in H.
        destruct H as [H|H]; discriminate H.
      * intros (W' & rest' & [= <- <-] & _ & H & _). congruence.
Qed.

Lemma parse_args_leading_errors_witness :
  parse_args 5 [] no_options (-1) = Some (ERROR_NOT_ENOUGH_ARGS, no_options, 0)
  /\ parse_args 5 [name_arg "p"; name_arg "p"] no_options (-1)
     = Some (ERROR_TOO_MANY_OUTPUT_ARGS, no_options, 0)
  /\ parse_args 2 [name_arg "p"; name_arg "p"] no_options (-1)
     = Some (ERROR_MATRIX, no_options, 0).
Proof.
  split; [|split].
  - apply (proj1 (parse_args_leading_errors 5 [] no_options no_options (-1) 0)).
    repeat split.
  - apply (proj1 (proj2 (parse_args_leading_errors 5 [name_arg "p"; name_arg "p"]
                           no_options no_options (-1) 0))).
    repeat split; try discriminate; lia.
  - apply (proj2 (proj2 (parse_args_leading_errors 2 [name_arg "p"; name_arg "p"]
                           no_options no_options (-1) 0))).
    exists (name_arg "p"), [name_arg "p"]. repeat split; lia.
Defined.

Lemma parse_pairs_defined (args : list mxArray) :
  values_hold_data args = true ->
  forall (argcount : Z) (pars : InfomapParams) (argposerr : Z),
    parse_pairs args argcount pars argposerr <> None.
Proof.
  induction args as [| x | name value args IH] using list_pair_ind; intros Hdata.
  - discriminate.
  - discriminate.
  - intros argcount pars argposerr.
    unfold values_hold_data in Hdata. cbn [forallb] in Hdata.
    apply andb_prop in Hdata. destruct Hdata as [_ Hdata].
    apply andb_prop in Hdata. destruct Hdata as [Hvalue Hrest].
    destruct (mxIsChar name) eqn:Hname;
      [|rewrite parse_pairs_wrong_type by (left; exact Hname); discriminate].
    destruct (mxIsChar value) eqn:Hchar;
      [rewrite parse_pairs_wrong_type by (right; exact Hchar); discriminate|].
    cbn [orb] in Hvalue. unfold holds_data in Hvalue.
    destruct (mxGetPr value) as [|v vs] eqn:Hv; [discriminate Hvalue|].
    rewrite (parse_pairs_step name value args _ _ _ v vs Hname Hchar Hv).
    destruct (parse_pair (mxArrayToString name) v); try discriminate.
    apply IH. exact Hrest.
Qed.

Lemma here_after_pairs (pre : list mxArray) :
  accepted_pairs pre = true ->
  1 + Z.of_nat (length pre) = 1 + 2 * Z.of_nat (length (pairs_of pre)).
Proof.
  intros H. rewrite (length_accepted_pairs pre H). reflexivity.
Qed.

(** X4. After any number of accepted pairs, a pair whose value is not a
    character array and holds no real data (an empty array) makes the parser
    dereference the null pointer when its name is one of the four known
    names: the value is read before it is checked.  With an unknown name the
    value is not read and the unknown-argument error is returned at the
    name's position. *)
Theorem parse_args_value_without_data (nOutputArgs : Z) (W : mxArray)
    (pre : list mxArray) (name value : mxArray) (rest : list mxArray)
    (pars : InfomapParams) (argposerr : Z) :
  nOutputArgs <= 2 -> matrix_refused W = false -> accepted_pairs pre = true ->
  mxIsChar name = true -> mxIsChar value = false -> mxGetPr value = [] ->
  parse_args nOutputArgs (W :: pre ++ name :: value :: rest) pars argposerr =
    match parameter_of (mxArrayToString name) with
    | Some _ => None
    | None =>
        Some (ERROR_ARG_UNKNOWN,
              add_option pars (join_flags (map flag_token (pairs_of pre))),
              1 + 2 * Z.of_nat (length (pairs_of pre)))
    end.
Proof.
  intros Hout HW Hpre Hname Hvalue Hdata.
  rewrite (parse_args_pairs _ _ _ _ _ Hout HW).
  rewrite (parse_pairs_accepted pre _ Hpre).
  rewrite (parse_pairs_no_data name value rest _ _ _ Hname Hvalue Hdata).
  rewrite (here_after_pairs pre Hpre). reflexivity.
Qed.

Lemma parse_args_value_without_data_witness :
  parse_args 2 [triplet_input path_both_ways; name_arg "p"; value_arg one_fifth;
                name_arg "markov-TIME"; with_values (value_arg Double.zero) []]
    no_options (-1)
  = None
  /\ parse_args 2 [triplet_input path_both_ways; name_arg "p"; value_arg one_fifth;
                   name_arg "q"; with_values (value_arg Double.zero) []]
       no_options (-1)
     = Some (ERROR_ARG_UNKNOWN, {| options := " -p0.200000 " |}, 3).
Proof.
  split.
  - exact (parse_args_value_without_data 2 (triplet_input path_both_ways)
             [name_arg "p"; value_arg one_fifth] (name_arg "markov-TIME")
             (with_values (value_arg Double.zero) []) [] no_options (-1)
             ltac:(lia) eq_refl eq_refl eq_refl eq_refl eq_refl).
  - exact (parse_args_value_without_data 2 (triplet_input path_both_ways)
             [name_arg "p"; value_arg one_fifth] (name_arg "q")
             (with_values (value_arg Double.zero) []) [] no_options (-1)
             ltac:(lia) eq_refl eq_refl eq_refl eq_refl eq_refl).
Defined.

(** X5. After any number of accepted pairs, a pair of the right types whose
    value is a number (not a NaN) is treated as documented: an unknown name
    fails with the unknown-argument error at the name's position; a known
    name with a value outside its range (below 0 for N and markov-time,
    outside [0,1] for p and y) fails with the value error one position
    further; otherwise its flag is added after the flags of the earlier
    pairs and the walk goes on behind the pair. *)
Theorem parse_args_pair_of_number (nOutputArgs : Z) (W : mxArray)
    (pre : list mxArray) (name value : mxArray) (rest : list mxArray)
    (pars : InfomapParams) (argposerr : Z) (v : double) (vs : list double) :
  nOutputArgs <= 2 -> matrix_refused W = false -> accepted_pairs pre = true ->
  mxIsChar name = true -> mxIsChar value = false ->
  mxGetPr value = v :: vs -> Double.is_nan v = false ->
  let here := 1 + 2 * Z.of_nat (length (pairs_of pre)) in
  let pars' := add_option pars (join_flags (map flag_token (pairs_of pre))) in
  parse_args nOutputArgs (W :: pre ++ name :: value :: rest) pars argposerr =
    match parameter_of (mxArrayToString name) with
    | None => Some (ERROR_ARG_UNKNOWN, pars', here)
    | Some o =>
        if in_documented_range o v
        then parse_pairs rest (here + 2)
               (add_option pars' (spaced (flag_prefix o ++ Double.to_string v)))
               argposerr
        else Some (ERROR_ARG_VALUE, pars', here + 1)
    end.
Proof.
  intros Hout HW Hpre Hname Hvalue Hdata Hv here pars'. subst here pars'.
  rewrite (parse_args_pairs _ _ _ _ _ Hout HW).
  rewrite (parse_pairs_accepted pre _ Hpre).
  rewrite (parse_pairs_of_number name value rest _ _ _ v vs Hname Hvalue Hdata Hv).
  rewrite (here_after_pairs pre Hpre). reflexivity.
Qed.

Lemma parse_args_pair_of_number_witness :
  parse_args 2 [triplet_input path_both_ways; name_arg "N"; value_arg (d_of 5);
                name_arg "Y"; value_arg (d_of 2); name_arg "unread"]
    no_options (-1)
  = Some (ERROR_ARG_VALUE, {| options := " -N5.000000 " |}, 4).
Proof.
  exact (parse_args_pair_of_number 2 (triplet_input path_both_ways)
           [name_arg "N"; value_arg (d_of 5)] (name_arg "Y") (value_arg (d_of 2))
           [name_arg "unread"] no_options (-1) (d_of 2) []
           ltac:(lia) eq_refl eq_refl eq_refl eq_refl eq_refl eq_refl).
Defined.

Lemma strcasecmp_of_same_name (s t n : string) :
  all_chars not_nul s = true -> all_chars not_nul t = true ->
  all_chars not_nul n = true -> same_name s t ->
  (strcasecmp s n =? 0) = (strcasecmp t n =? 0).
Proof.
  intros Hs Ht Hn Hst.
  pose proof (strcasecmp_same_name s n Hs Hn) as Hsn.
  pose proof (strcasecmp_same_name t n Ht Hn) as Htn.
  unfold same_name in *.
  destruct (Z.eqb_spec (strcasecmp s n) 0) as [E|E],
           (Z.eqb_spec (strcasecmp t n) 0) as [E'|E']; try reflexivity.
  - exfalso. apply E'. apply Htn. rewrite <- Hst. apply Hsn. exact E.
  - exfalso. apply E. apply Hsn. rewrite Hst. apply Htn. exact E'.
Qed.

(** ** The call and its collaborators *)

(** X7. A call consults the graph helper and the engine at most once, with
    the graph it has built and the configuration string of its arguments,
    and only after the arguments have parsed and the graph has been built:
    two engines that agree on that one question give the same run. *)
Theorem mexFunction_asks_once
    (infomap infomap' : graph_args -> string -> exception + engine_output)
    (nOutputArgs : Z) (inputArgs : list mxArray) :
  (forall (W0 : mxArray) (args : list mxArray) (G : graph_args),
      inputArgs = W0 :: args -> make_graph W0 = inr G ->
      infomap G (configuration args) = infomap' G (configuration args)) ->
  mexFunction infomap nOutputArgs inputArgs
  = mexFunction infomap' nOutputArgs inputArgs.
Proof.
  intros Hsame.
  destruct (parse_args nOutputArgs inputArgs no_options (-1))
    as [[[err pars] pos]|] eqn:Hparse.
  - destruct inputArgs as [|W0 args].
    + unfold mexFunction. fold no_options. rewrite Hparse.
      destruct (negb (error_type_eqb err NO_ERROR)); reflexivity.
    + destruct (error_type_eqb err NO_ERROR) eqn:Herr.
      * assert (err = NO_ERROR) as -> by (destruct err; try discriminate Herr; reflexivity).
        destruct (make_graph W0) as [e|G] eqn:HG.
        -- rewrite !(mexFunction_no_error _ _ _ _ _ _ Hparse).
           unfold try_block. rewrite HG. reflexivity.
        -- rewrite !(mexFunction_parsed _ _ _ _ _ _ G Hparse HG).
           rewrite (Hsame W0 args G eq_refl HG). reflexivity.
      * unfold mexFunction. fold no_options. rewrite Hparse, Herr. reflexivity.
  - unfold mexFunction. fold no_options. rewrite Hparse. reflexivity.
Qed.

Lemma mexFunction_asks_once_witness :
  mexFunction sample_engine 2 [triplet_input unbalanced; name_arg "N"; value_arg (d_of 5)]
  = mexFunction (fun _ _ => inl (collaborator_error "unused")) 2
      [triplet_input unbalanced; name_arg "N"; value_arg (d_of 5)].
Proof.
  apply mexFunction_asks_once.
  intros W0 args G [= <- <-] HG. vm_compute in HG. discriminate HG.
Defined.

(** ** The graph of an accepted matrix *)

Lemma length_flat_map_endpoints (ts : list triplet) :
  length (List.flat_map endpoints ts) = (2 * length ts)%nat.
Proof.
  induction ts as [|t ts IH]; simpl; [reflexivity | rewrite IH; lia].
Qed.

Lemma length_filter_le {A : Type} (p : A -> bool) (xs : list A) :
  (length (List.filter p xs) <= length xs)%nat.
Proof.
  induction xs as [|x xs IH]; simpl; [lia|].
  destruct (p x); simpl; lia.
Qed.

Lemma length_triplets_nat (W : list double) (M : Z) :
  length (triplets W M) = Z.to_nat M.
Proof.
  unfold triplets, row_numbers. rewrite length_map, length_seq. reflexivity.
Qed.

(** X8. The two vectors handed to the graph constructor always fit
    together: the first holds two node numbers per edge, the second one
    weight per edge, the edge count is the number of weights, and there are
    at most as many edges as the input has rows. *)
Theorem edge_vectors_fit (W0 : mxArray) (el ew : list double) (n : nat) :
  make_graph W0 = inr (GraphC_edges el ew n) ->
  length ew = n /\ length el = (2 * n)%nat
  /\ length (edges_of el ew) = n /\ Z.of_nat n <= mxGetM W0.
Proof.
  unfold make_graph. cbv zeta.
  destruct (Z.gtb_spec (mxGetM W0) 3) as [HM|HM]; cbn [andb]; [|discriminate].
  destruct (mxGetN W0 =? 3); [|discriminate].
  unfold sparse_graph. cbv zeta.
  match goal with
  | |- (if ?c then _ else _) = _ -> _ => destruct c; [discriminate|]
  end.
  rewrite build_edges_spec. cbn [edges_list edges_weights].
  set (kept := List.filter _ _).
  intros [= <- <- <-].
  assert (Hkept : (length kept <= Z.to_nat (mxGetM W0))%nat).
  { unfold kept. rewrite <- (length_triplets_nat (mxGetPr W0) (mxGetM W0)).
    apply length_filter_le. }
  rewrite edges_of_endpoints, length_flat_map_endpoints, !length_map.
  repeat split; lia.
Qed.

Lemma edge_vectors_fit_witness :
  length [one_half; one_half] = 2%nat
  /\ length [d_of 1; d_of 0; d_of 2; d_of 1] = (2 * 2)%nat
  /\ length (edges_of [d_of 1; d_of 0; d_of 2; d_of 1] [one_half; one_half]) = 2%nat
  /\ Z.of_nat 2 <= mxGetM (triplet_input path_both_ways).
Proof.
  apply (edge_vectors_fit (triplet_input path_both_ways)).
  vm_compute. reflexivity.
Defined.

(** ** What the classification of a triplet list looks at *)

Lemma count_rows_cons (p : triplet -> bool) (t : triplet) (ts : list triplet) :
  count_rows p (t :: ts) = Z.b2z (p t) + count_rows p ts.
Proof.
  unfold count_rows. simpl. destruct (p t); simpl length; simpl Z.b2z; lia.
Qed.

Lemma count_rows_bounds (p : triplet -> bool) (ts : list triplet) :
  0 <= count_rows p ts <= Z.of_nat (length ts).
Proof.
  unfold count_rows. pose proof (length_filter_le p ts). lia.
Qed.

Lemma count_rows_all (p : triplet -> bool) (ts : list triplet) :
  count_rows p ts = Z.of_nat (length ts) <-> Forall (fun t => p t = true) ts.
Proof.
  induction ts as [|t ts IH].
  - split; [constructor | reflexivity].
  - rewrite count_rows_cons. pose proof (count_rows_bounds p ts) as Hb.
    simpl length. split.
    + intros H. destruct (p t) eqn:Hp; simpl in H; [|lia].
      constructor; [exact Hp | apply IH; lia].
    + intros H. apply Forall_cons in H. destruct H as [Hp H].
      apply IH in H. rewrite Hp. simpl. lia.
Qed.

Lemma count_rows_none (p : triplet -> bool) (ts : list triplet) :
  count_rows p ts = 0 <-> Forall (fun t => p t = false) ts.
Proof.
  induction ts as [|t ts IH].
  - split; [constructor | reflexivity].
  - rewrite count_rows_cons. pose proof (count_rows_bounds p ts) as Hb. split.
    + intros H. destruct (p t) eqn:Hp; simpl in H; [lia|].
      constructor; [exact Hp | apply IH; lia].
    + intros H. apply Forall_cons in H. destruct H as [Hp H].
      apply IH in H. rewrite Hp. simpl. lia.
Qed.

Lemma count_rows_sum (p q r : triplet -> bool) (ts : list triplet) :
  (forall t, Z.b2z (p t) = Z.b2z (q t) + Z.b2z (r t)) ->
  count_rows p ts = count_rows q ts + count_rows r ts.
Proof.
  intros H. induction ts as [|t ts IH]; [reflexivity|].
  rewrite !count_rows_cons, IH, H. lia.
Qed.

Lemma row_partition (t : triplet) :
  Z.b2z (row_ge_col t) + Z.b2z (row_lt_col t) + Z.b2z (row_unordered t) = 1.
Proof.
  unfold row_ge_col, row_lt_col, row_unordered, Double.geb, Double.ltb, SFleb, SFltb.
  rewrite (SFcompare_antisym (row_of t) (col_of t)).
  destruct (SFcompare (row_of t) (col_of t)) as [[ | | ]|]; reflexivity.
Qed.

Lemma row_ge_split (t : triplet) :
  Z.b2z (row_ge_col t) = Z.b2z (row_gt_col t) + Z.b2z (row_eq_col t).
Proof.
  unfold row_ge_col, row_gt_col, row_eq_col, Double.geb, Double.ltb,
    SFleb, SFltb, SFeqb.
  rewrite (SFcompare_antisym (row_of t) (col_of t)).
  destruct (SFcompare (row_of t) (col_of t)) as [[ | | ]|]; reflexivity.
Qed.

Lemma emitted_symmetric (f : triplet_flags) :
  shape_of_flags f = SparseSymmetric -> forall t, emitted f t = row_lt_col t.
Proof.
  unfold shape_of_flags, emitted. intros H t.
  destruct (isUpperTriangular f); [discriminate H|].
  destruct (isLowerTriangular f); [discriminate H|].
  destruct (isSymmetric f); [reflexivity | discriminate H].
Qed.

Lemma length_triplets_Z (W : list double) (M : Z) :
  0 <= M -> Z.of_nat (length (triplets W M)) = M.
Proof.
  intros HM. rewrite length_triplets_nat. lia.
Qed.

(** X10. The two triangular shapes mean what their names say about every
    row: a triplet input is classified upper triangular exactly when each of
    its rows has its row index below its column index, and lower triangular
    exactly when each of its rows has its row index at least its column
    index, so that rows on the diagonal pass as lower triangular. *)
Theorem triangular_shapes_sound (W0 : mxArray) :
  mxGetN W0 = 3 -> 3 < mxGetM W0 ->
  let ts := triplets (mxGetPr W0) (mxGetM W0) in
  let shape := shape_of_flags (classify (mxGetPr W0) (mxGetM W0)) in
  (shape = SparseUpperTriangular <-> Forall (fun t => row_lt_col t = true) ts)
  /\ (shape = SparseLowerTriangular <-> Forall (fun t => row_ge_col t = true) ts).
Proof.
  intros _ HM. cbv zeta. rewrite classify_counts. cbv zeta.
  set (ts := triplets (mxGetPr W0) (mxGetM W0)).
  assert (Hlen : Z.of_nat (length ts) = mxGetM W0)
    by (apply length_triplets_Z; lia).
  pose proof (count_rows_all row_lt_col ts) as Hall_lt.
  pose proof (count_rows_all row_ge_col ts) as Hall_ge.
  pose proof (count_rows_none row_lt_col ts) as Hno_lt.
  pose proof (count_rows_none row_ge_col ts) as Hno_ge.
  assert (Hlt_ge : Forall (fun t => row_lt_col t = true) ts ->
                   Forall (fun t => row_ge_col t = false) ts).
  { intros Hall. eapply Forall_impl; [exact Hall|]. intros t Hlt. cbv beta in *.
    destruct (row_ge_col t) eqn:Hge; [|reflexivity].
    unfold row_ge_col in Hge. unfold row_lt_col in Hlt.
    rewrite (geb_excludes_ltb _ _ Hge) in Hlt. discriminate Hlt. }
  assert (Hge_lt : Forall (fun t => row_ge_col t = true) ts ->
                   Forall (fun t => row_lt_col t = false) ts).
  { intros Hall. eapply Forall_impl; [exact Hall|].
    intros t Hge. exact (geb_excludes_ltb _ _ Hge). }
  rewrite Hlen in Hall_lt, Hall_ge.
  unfold shape_of_flags. cbn [isUpperTriangular isLowerTriangular isSymmetric].
  split; split.
  - intros H. apply Hall_lt.
    destruct (Z.eqb_spec (count_rows row_ge_col ts) 0);
      destruct (Z.eqb_spec (count_rows row_lt_col ts) (mxGetM W0));
      cbn [andb] in H; try assumption;
      repeat match type of H with
             | (if ?c then _ else _) = _ => destruct c
             end; discriminate H.
  - intros H.
    rewrite (proj2 Hall_lt H), (proj2 Hno_ge (Hlt_ge H)), !Z.eqb_refl. reflexivity.
  - intros H. apply Hall_ge.
    destruct (Z.eqb_spec (count_rows row_ge_col ts) (mxGetM W0)); [assumption|].
    cbn [andb] in H.
    repeat match type of H with
           | (if ?c then _ else _) = _ => destruct c
           end; discriminate H.
  - intros H.
    rewrite (proj2 Hall_ge H), (proj2 Hno_lt (Hge_lt H)), !Z.eqb_refl.
    replace (mxGetM W0 =? 0) with false by (symmetry; apply Z.eqb_neq; lia).
    reflexivity.
Qed.

Lemma triangular_shapes_sound_witness :
  Forall (fun t => row_lt_col t = true)
    (triplets (mxGetPr (triplet_input upper_only)) (mxGetM (triplet_input upper_only))).
Proof.
  apply (proj1 (triangular_shapes_sound (triplet_input upper_only)
                  eq_refl ltac:(vm_compute; reflexivity))).
  vm_compute. reflexivity.
Defined.

(** X11. Every row counts in exactly one of three groups: row index at
    least the column index, row index below it, or indices that do not
    compare because one is a NaN; the last group enters neither sum.  In the
    symmetric shape the number of edges handed over is half the number of
    rows whose indices compare. *)
Theorem symmetric_edge_count (W0 : mxArray) :
  mxGetN W0 = 3 -> 3 < mxGetM W0 ->
  let ts := triplets (mxGetPr W0) (mxGetM W0) in
  count_rows row_ge_col ts + count_rows row_lt_col ts
  + count_rows row_unordered ts = mxGetM W0
  /\ (shape_of_flags (classify (mxGetPr W0) (mxGetM W0)) = SparseSymmetric ->
      exists (el ew : list double) (n : nat),
        make_graph W0 = inr (GraphC_edges el ew n)
        /\ 2 * Z.of_nat n + count_rows row_unordered ts = mxGetM W0).
Proof.
  intros HN HM ts.
  assert (Hpart : count_rows row_ge_col ts + count_rows row_lt_col ts
                  + count_rows row_unordered ts = mxGetM W0).
  { rewrite <- (length_triplets_Z (mxGetPr W0) (mxGetM W0)) by lia. fold ts.
    clearbody ts. induction ts as [|t ts IH]; [reflexivity|].
    rewrite !count_rows_cons. pose proof (row_partition t).
    simpl length. lia. }
  split; [exact Hpart|].
  intros Hshape.
  rewrite (make_graph_triplet W0 HN HM).
  rewrite sparse_graph_edges by (rewrite Hshape; discriminate).
  cbv zeta. fold ts.
  rewrite (filter_ext_bool _ _ ts (emitted_symmetric _ Hshape)).
  eexists _, _, _. split; [reflexivity|].
  rewrite length_map. fold (count_rows row_lt_col ts).
  assert (Hsym : count_rows row_ge_col ts = count_rows row_lt_col ts).
  { revert Hshape. rewrite classify_counts. cbv zeta. fold ts.
    unfold shape_of_flags. cbn [isUpperTriangular isLowerTriangular isSymmetric].
    destruct (Z.eqb_spec (count_rows row_ge_col ts) (count_rows row_lt_col ts));
      [intros _; assumption|].
    intros H.
    repeat match type of H with
           | (if ?c then _ else _) = _ => destruct c
           end; discriminate H. }
  lia.
Qed.

Lemma symmetric_edge_count_witness :
  exists (el ew : list double) (n : nat),
    make_graph (triplet_input path_both_ways) = inr (GraphC_edges el ew n)
    /\ 2 * Z.of_nat n
       + count_rows row_unordered
           (triplets (mxGetPr (triplet_input path_both_ways))
              (mxGetM (triplet_input path_both_ways)))
       = mxGetM (triplet_input path_both_ways).
Proof.
  apply (proj2 (symmetric_edge_count (triplet_input path_both_ways)
                  eq_refl ltac:(vm_compute; reflexivity))).
  vm_compute. reflexivity.
Defined.

(** X12. The index pairs of a symmetric matrix with entries on its
    diagonal are refused: when as many rows lie strictly below the diagonal
    as above it, at least one row lies above it and at least one on it, the
    rows on the diagonal unbalance the two sums and the exception is
    thrown. *)
Theorem diagonal_entries_refused (W0 : mxArray) :
  mxGetN W0 = 3 -> 3 < mxGetM W0 ->
  let ts := triplets (mxGetPr W0) (mxGetM W0) in
  count_rows row_gt_col ts = count_rows row_lt_col ts ->
  0 < count_rows row_lt_col ts -> 0 < count_rows row_eq_col ts ->
  make_graph W0 = inl (logic_error not_symmetric_nor_triangular).
Proof.
  intros HN HM ts Hbal Habove Hdiag.
  rewrite (make_graph_triplet W0 HN HM).
  apply sparse_graph_invalid.
  rewrite classify_counts. cbv zeta. fold ts.
  rewrite (count_rows_sum row_ge_col row_gt_col row_eq_col ts row_ge_split).
  unfold shape_of_flags. cbn [isUpperTriangular isLowerTriangular isSymmetric].
  repeat match goal with
         | |- context [?a =? ?b] => destruct (Z.eqb_spec a b)
         end; cbn [andb]; try reflexivity; lia.
Qed.

Lemma diagonal_entries_refused_witness :
  make_graph (triplet_input [(d_of 1, d_of 2, one_half); (d_of 2, d_of 1, one_half);
                             (d_of 1, d_of 1, one_fifth); (d_of 2, d_of 2, one_fifth);
                             (d_of 2, d_of 3, one_half); (d_of 3, d_of 2, one_half)])
  = inl (logic_error not_symmetric_nor_triangular).
Proof.
  apply diagonal_entries_refused; vm_compute; reflexivity.
Defined.

Lemma same_indices_count (p : double -> double -> bool) (ts ts' : list triplet) :
  same_indices ts ts' ->
  count_rows (fun t => p (row_of t) (col_of t)) ts
  = count_rows (fun t => p (row_of t) (col_of t)) ts'.
Proof.
  intros H. induction H as [|t t' ts ts' [Hr Hc] _ IH]; [reflexivity|].
  rewrite !count_rows_cons, IH, Hr, Hc. reflexivity.
Qed.

Lemma same_indices_classify (W0 W0' : mxArray) :
  mxGetM W0 = mxGetM W0' ->
  same_indices (triplets (mxGetPr W0) (mxGetM W0))
               (triplets (mxGetPr W0') (mxGetM W0')) ->
  classify (mxGetPr W0) (mxGetM W0) = classify (mxGetPr W0') (mxGetM W0').
Proof.
  intros HM Hsame. rewrite !classify_counts. cbv zeta.
  pose proof (same_indices_count Double.geb _ _ Hsame) as Hge.
  pose proof (same_indices_count Double.ltb _ _ Hsame) as Hlt.
  change (fun t => Double.geb (row_of t) (col_of t)) with row_ge_col in Hge.
  change (fun t => Double.ltb (row_of t) (col_of t)) with row_lt_col in Hlt.
  rewrite Hge, Hlt, HM. reflexivity.
Qed.

(** X13. The classification reads the two index columns only: two triplet
    inputs of the same size with the same indices row by row get the same
    flags, whatever their weights, and the one is refused exactly when the
    other is.  No weight is compared with its mirror. *)
Theorem classification_ignores_weights (W0 W0' : mxArray) :
  mxGetN W0 = 3 -> mxGetN W0' = 3 -> 3 < mxGetM W0 -> mxGetM W0 = mxGetM W0' ->
  same_indices (triplets (mxGetPr W0) (mxGetM W0))
               (triplets (mxGetPr W0') (mxGetM W0')) ->
  classify (mxGetPr W0) (mxGetM W0) = classify (mxGetPr W0') (mxGetM W0')
  /\ forall e : exception, make_graph W0 = inl e <-> make_graph W0' = inl e.
Proof.
  intros HN HN' HM HMM Hsame.
  pose proof (same_indices_classify W0 W0' HMM Hsame) as Hc.
  split; [exact Hc|].
  intros e.
  rewrite (make_graph_triplet W0 HN HM).
  rewrite (make_graph_triplet W0' HN') by lia.
  unfold sparse_graph. cbv zeta. rewrite Hc.
  match goal with
  | |- context [if ?c then _ else _] => destruct c
  end; split; intros H; try exact H; discriminate H.
Qed.

Lemma classification_ignores_weights_witness :
  classify (mxGetPr (triplet_input path_both_ways)) 4
  = classify (mxGetPr (triplet_input
                         [(d_of 1, d_of 2, d_of 9); (d_of 2, d_of 3, one_half);
                          (d_of 2, d_of 1, one_fifth); (d_of 3, d_of 2, d_of 7)])) 4.
Proof.
  apply (classification_ignores_weights (triplet_input path_both_ways)
           (triplet_input
              [(d_of 1, d_of 2, d_of 9); (d_of 2, d_of 3, one_half);
               (d_of 2, d_of 1, one_fifth); (d_of 3, d_of 2, d_of 7)])
           eq_refl eq_refl ltac:(vm_compute; reflexivity) eq_refl).
  rewrite !triplets_triplet_input.
  repeat constructor.
Defined.

Lemma same_above_same_indices (ts ts' : list triplet) :
  same_above_diagonal ts ts' -> same_indices ts ts'.
Proof.
  intros H. induction H as [|t t' ts ts' (Hr & Hc & _) _ IH]; constructor.
  - split; assumption.
  - exact IH.
Qed.

Lemma same_above_kept (ts ts' : list triplet) :
  same_above_diagonal ts ts' ->
  List.flat_map endpoints (List.filter row_lt_col ts)
  = List.flat_map endpoints (List.filter row_lt_col ts')
  /\ map weight_of (List.filter row_lt_col ts)
     = map weight_of (List.filter row_lt_col ts').
Proof.
  intros H. induction H as [|t t' ts ts' (Hr & Hc & Hw) _ [IH1 IH2]].
  - split; reflexivity.
  - simpl List.filter.
    assert (Hlt : row_lt_col t' = row_lt_col t)
      by (unfold row_lt_col; rewrite Hr, Hc; reflexivity).
    rewrite Hlt. destruct (row_lt_col t) eqn:E; [|split; assumption].
    cbn [List.flat_map map]. rewrite IH1, IH2.
    unfold endpoints. rewrite Hr, Hc, (Hw eq_refl).
    split; reflexivity.
Qed.

(** X14. In the symmetric shape the weights of the rows on or below the
    diagonal never reach the graph: changing them, with the indices and the
    weights above the diagonal kept, gives the same arguments to the graph
    constructor. *)
Theorem symmetric_ignores_lower_weights (W0 W0' : mxArray) :
  mxGetN W0 = 3 -> mxGetN W0' = 3 -> 3 < mxGetM W0 -> mxGetM W0 = mxGetM W0' ->
  same_above_diagonal (triplets (mxGetPr W0) (mxGetM W0))
                      (triplets (mxGetPr W0') (mxGetM W0')) ->
  shape_of_flags (classify (mxGetPr W0) (mxGetM W0)) = SparseSymmetric ->
  make_graph W0 = make_graph W0'.
Proof.
  intros HN HN' HM HMM Hsame Hshape.
  pose proof (same_indices_classify W0 W0' HMM (same_above_same_indices _ _ Hsame))
    as Hc.
  assert (Hshape' : shape_of_flags (classify (mxGetPr W0') (mxGetM W0'))
                    = SparseSymmetric) by (rewrite <- Hc; exact Hshape).
  rewrite (make_graph_triplet W0 HN HM).
  rewrite (make_graph_triplet W0' HN') by lia.
  rewrite sparse_graph_edges by (rewrite Hshape; discriminate).
  rewrite sparse_graph_edges by (rewrite Hshape'; discriminate).
  cbv zeta.
  rewrite (filter_ext_bool _ _ _ (emitted_symmetric _ Hshape)).
  rewrite (filter_ext_bool _ _ _ (emitted_symmetric _ Hshape')).
  destruct (same_above_kept _ _ Hsame) as [-> ->]. reflexivity.
Qed.

Lemma symmetric_ignores_lower_weights_witness :
  make_graph (triplet_input path_both_ways)
  = make_graph (triplet_input
                  [(d_of 1, d_of 2, one_half); (d_of 2, d_of 3, one_half);
                   (d_of 2, d_of 1, d_of 9); (d_of 3, d_of 2, d_of 7)]).
Proof.
  apply symmetric_ignores_lower_weights;
    try reflexivity; try (vm_compute; reflexivity).
  rewrite !triplets_triplet_input.
  repeat constructor; intros H; vm_compute in H; discriminate H.
Defined.

Lemma count_rows_permutation (p : triplet -> bool) (ts ts' : list triplet) :
  Permutation ts ts' -> count_rows p ts = count_rows p ts'.
Proof.
  intros H. induction H as [| t ts ts' _ IH | t u ts | ts ts' ts'' _ IH1 _ IH2].
  - reflexivity.
  - rewrite !count_rows_cons, IH. reflexivity.
  - rewrite !count_rows_cons. lia.
  - rewrite IH1. exact IH2.
Qed.

(** X15. The classification counts rows and does not look at their order:
    a triplet input whose rows are those of another in another order gets
    the same flags. *)
Theorem classification_ignores_row_order (W0 W0' : mxArray) :
  mxGetM W0 = mxGetM W0' ->
  Permutation (triplets (mxGetPr W0) (mxGetM W0))
              (triplets (mxGetPr W0') (mxGetM W0')) ->
  classify (mxGetPr W0) (mxGetM W0) = classify (mxGetPr W0') (mxGetM W0').
Proof.
  intros HM Hperm. rewrite !classify_counts. cbv zeta.
  rewrite (count_rows_permutation row_ge_col _ _ Hperm).
  rewrite (count_rows_permutation row_lt_col _ _ Hperm).
  rewrite HM. reflexivity.
Qed.

Lemma classification_ignores_row_order_witness :
  classify (mxGetPr (triplet_input path_both_ways)) 4
  = classify (mxGetPr (triplet_input
                         [(d_of 2, d_of 3, one_half); (d_of 1, d_of 2, one_half);
                          (d_of 2, d_of 1, one_half); (d_of 3, d_of 2, one_half)])) 4.
Proof.
  apply (classification_ignores_row_order (triplet_input path_both_ways)
           (triplet_input
              [(d_of 2, d_of 3, one_half); (d_of 1, d_of 2, one_half);
               (d_of 2, d_of 1, one_half); (d_of 3, d_of 2, one_half)])
           eq_refl).
  rewrite !triplets_triplet_input.
  apply perm_swap.
Defined.

(** ** The membership vector and the order of the leaves *)

Lemma last_cluster_some (ls : list leaf) (i c : nat) :
  last_cluster ls i = Some c ->
  exists lf, In lf ls /\ originalLeafIndex lf = i /\ parentIndex lf = c.
Proof.
  induction ls as [|x ls IH]; simpl; [discriminate|].
  destruct (last_cluster ls i) as [c'|].
  - intros [= <-]. destruct (IH eq_refl) as (lf & Hin & Hi & Hc).
    exists lf. repeat split; [right; exact Hin | exact Hi | exact Hc].
  - destruct (Nat.eqb_spec (originalLeafIndex x) i) as [E|E]; [|discriminate].
    intros [= <-]. exists x. repeat split; [left; reflexivity | exact E].
Qed.

Lemma last_cluster_in (ls : list leaf) :
  List.NoDup (map originalLeafIndex ls) ->
  forall lf, In lf ls ->
    last_cluster ls (originalLeafIndex lf) = Some (parentIndex lf).
Proof.
  induction ls as [|x ls IH]; intros Hnd lf Hin; [destruct Hin|].
  inversion Hnd as [|i0 others Hnotin Hnd']; subst.
  simpl. destruct Hin as [->|Hin].
  - destruct (last_cluster ls (originalLeafIndex lf)) as [c|] eqn:Hlast.
    + exfalso. apply Hnotin.
      destruct (last_cluster_some _ _ _ Hlast) as (lf' & Hin' & Hi' & _).
      rewrite <- Hi'. apply in_map. exact Hin'.
    + rewrite Nat.eqb_refl. reflexivity.
  - rewrite (IH Hnd' lf Hin). reflexivity.
Qed.

Lemma last_cluster_permutation (ls ls' : list leaf) (i : nat) :
  List.NoDup (map originalLeafIndex ls) -> Permutation ls ls' ->
  last_cluster ls i = last_cluster ls' i.
Proof.
  intros Hnd Hperm.
  assert (Hnd' : List.NoDup (map originalLeafIndex ls'))
    by (eapply Permutation_NoDup; [apply Permutation_map; exact Hperm | exact Hnd]).
  destruct (last_cluster ls i) as [c|] eqn:Hl.
  - destruct (last_cluster_some _ _ _ Hl) as (lf & Hin & <- & <-).
    symmetry. apply (last_cluster_in ls' Hnd').
    eapply Permutation_in; [exact Hperm | exact Hin].
  - destruct (last_cluster ls' i) as [c'|] eqn:Hl'; [|reflexivity].
    destruct (last_cluster_some _ _ _ Hl') as (lf & Hin & <- & <-).
    rewrite (last_cluster_in ls Hnd lf) in Hl; [discriminate Hl|].
    eapply Permutation_in; [apply Permutation_sym; exact Hperm | exact Hin].
Qed.

(** X16. When the leaves of the engine have pairwise different original
    indices, all below the number of nodes, the membership vector does not
    depend on the order in which the engine lists them. *)
Theorem membership_ignores_leaf_order (N : nat) (ls ls' : list leaf) (cl : double) :
  Forall (fun lf => (originalLeafIndex lf < N)%nat) ls ->
  List.NoDup (map originalLeafIndex ls) ->
  Permutation ls ls' ->
  read_result {| number_of_nodes := N; leaves := ls; codelength := cl |}
  = read_result {| number_of_nodes := N; leaves := ls'; codelength := cl |}.
Proof.
  intros Hall Hnd Hperm.
  assert (Hall' : Forall (fun lf => (originalLeafIndex lf < N)%nat) ls')
    by (eapply Permutation_Forall; [exact Hperm | exact Hall]).
  unfold read_result. cbn [number_of_nodes leaves codelength].
  destruct (fill_membership_in_range ls (replicate N Double.zero))
    as (m & Hm & Hlook); [rewrite length_replicate; exact Hall|].
  destruct (fill_membership_in_range ls' (replicate N Double.zero))
    as (m' & Hm' & Hlook'); [rewrite length_replicate; exact Hall'|].
  rewrite Hm, Hm'.
  assert (Heq : m = m').
  { apply list_eq. intros i.
    rewrite Hlook, Hlook', (last_cluster_permutation ls ls' i Hnd Hperm).
    reflexivity. }
  rewrite Heq. reflexivity.
Qed.

Lemma membership_ignores_leaf_order_witness :
  read_result {| number_of_nodes := 3; leaves := sample_leaves;
                 codelength := one_half |}
  = read_result {| number_of_nodes := 3;
                   leaves := [ {| originalLeafIndex := 0; parentIndex := 1 |};
                               {| originalLeafIndex := 2; parentIndex := 0 |};
                               {| originalLeafIndex := 1; parentIndex := 1 |} ];
                   codelength := one_half |}.
Proof.
  apply membership_ignores_leaf_order.
  - unfold sample_leaves. repeat constructor.
  - unfold sample_leaves. cbn [map originalLeafIndex].
    repeat constructor; cbn [In]; intros H;
      repeat (destruct H as [H|H]; [discriminate H|]); exact H.
  - unfold sample_leaves. apply perm_swap.
Defined.

Lemma fill_membership_first_bad (before : list leaf) (lf : leaf) (after : list leaf) :
  forall membership : list double,
    Forall (fun x => (originalLeafIndex x < length membership)%nat) before ->
    (length membership <= originalLeafIndex lf)%nat ->
    fill_membership (before ++ lf :: after) membership
    = inl (out_of_range (originalLeafIndex lf) (length membership)).
Proof.
  induction before as [|x before IH]; intros membership Hall Hbad.
  - simpl.
    destruct (Nat.ltb_spec (originalLeafIndex lf) (length membership)); [lia|].
    reflexivity.
  - apply Forall_cons in Hall. destruct Hall as [Hx Hall].
    simpl. apply Nat.ltb_lt in Hx. rewrite Hx.
    rewrite IH; rewrite ?length_insert; [reflexivity | exact Hall | exact Hbad].
Qed.

(** X17. The first leaf whose original index is not below the number of
    nodes ends the loop over the leaves: the leaves after it are not read,
    and the call ends with the message of [vector::at], which names that
    index and the size of the vector. *)
Theorem first_bad_leaf_reported (N : nat) (before after : list leaf) (lf : leaf)
    (cl : double) :
  Forall (fun x => (originalLeafIndex x < N)%nat) before ->
  (N <= originalLeafIndex lf)%nat ->
  finish (read_result {| number_of_nodes := N;
                         leaves := before ++ lf :: after;
                         codelength := cl |})
  = {| printed := [cerr ("vector::_M_range_check: __n (which is "
                         ++ string_of_nat (originalLeafIndex lf)
                         ++ ") >= this->size() (which is "
                         ++ string_of_nat N ++ ")" ++ String "010" EmptyString)];
       completed := mexErrMsgTxt
                      ("vector::_M_range_check: __n (which is "
                       ++ string_of_nat (originalLeafIndex lf)
                       ++ ") >= this->size() (which is "
                       ++ string_of_nat N ++ ")") |}.
Proof.
  intros Hall Hbad. unfold read_result. cbn [number_of_nodes leaves codelength].
  rewrite fill_membership_first_bad; rewrite ?length_replicate; try assumption.
  unfold finish, what.
  rewrite !string_app_assoc. reflexivity.
Qed.

Lemma first_bad_leaf_reported_witness :
  completed (finish (read_result
                       {| number_of_nodes := 2;
                          leaves := [ {| originalLeafIndex := 1; parentIndex := 0 |};
                                      {| originalLeafIndex := 5; parentIndex := 0 |};
                                      {| originalLeafIndex := 9; parentIndex := 1 |} ];
                          codelength := one_half |}))
  = mexErrMsgTxt
      "vector::_M_range_check: __n (which is 5) >= this->size() (which is 2)".
Proof.
  assert (Hbefore : Forall (fun x => (originalLeafIndex x < 2)%nat)
                      [ {| originalLeafIndex := 1; parentIndex := 0 |} ])
    by (repeat constructor).
  assert (Hbad : (2 <= originalLeafIndex {| originalLeafIndex := 5; parentIndex := 0 |})%nat)
    by (cbn [originalLeafIndex]; lia).
  pose proof (first_bad_leaf_reported 2
                [ {| originalLeafIndex := 1; parentIndex := 0 |} ]
                [ {| originalLeafIndex := 9; parentIndex := 1 |} ]
                {| originalLeafIndex := 5; parentIndex := 0 |} one_half
                Hbefore Hbad) as H.
  cbn [app] in H. rewrite H. reflexivity.
Defined.

(** ** Reading an error message back *)

Lemma string_app_inv_head (a x y : string) :
  (a ++ x = a ++ y)%string -> x = y.
Proof.
  induction a as [|c a IH]; simpl; [trivial|].
  intros [= H]. exact (IH H).
Qed.

Lemma split_at_colon (d : string) :
  forall (d' x x' : string),
    all_chars not_colon d = true -> all_chars not_colon d' = true ->
    (d ++ String ":" x = d' ++ String ":" x')%string ->
    d = d' /\ x = x'.
Proof.
  induction d as [|c d IH]; intros [|c' d'] x x' Hd Hd' H; simpl in *.
  - injection H as H. split; [reflexivity | exact H].
  - injection H as Hc _. subst c'. discriminate Hd'.
  - injection H as Hc _. subst c. discriminate Hd.
  - injection H as Hc H. subst c'.
    apply andb_prop in Hd. destruct Hd as [_ Hd].
    apply andb_prop in Hd'. destruct Hd' as [_ Hd'].
    destruct (IH d' x x' Hd Hd' H) as [-> ->]. split; reflexivity.
Qed.

Lemma digit_not_colon (c : ascii) : is_digit c = true -> not_colon c = true.
Proof.
  intros H. unfold not_colon.
  destruct (Ascii.eqb_spec c ":") as [E|E]; [subst c; discriminate H | reflexivity].
Qed.

Lemma string_of_int_no_colon (z : Z) :
  all_chars not_colon (string_of_int z) = true.
Proof.
  assert (Hu : forall u, all_chars not_colon (NilZero.string_of_uint u) = true).
  { intros u. apply (all_chars_impl is_digit); [exact digit_not_colon|].
    unfold NilZero.string_of_uint.
    destruct u; try reflexivity; apply uint_digits. }
  unfold string_of_int, NilZero.string_of_int.
  destruct (Z.to_int z) as [u|u]; [apply Hu|].
  cbn [all_chars]. rewrite Hu. reflexivity.
Qed.

Lemma string_of_int_inj (z z' : Z) :
  string_of_int z = string_of_int z' -> z = z'.
Proof.
  assert (Hproper : forall n, Z.to_int n <> Decimal.Pos Decimal.Nil
                              /\ Z.to_int n <> Decimal.Neg Decimal.Nil).
  { intros [|p|p]; simpl; split; try discriminate;
      intros [= H]; exact (DecimalPos.Unsigned.to_uint_nonnil p H). }
  unfold string_of_int. intros H.
  apply (f_equal NilZero.int_of_string) in H.
  rewrite !NilZero.isi in H by apply Hproper.
  injection H as H. exact (DecimalZ.to_int_inj z z' H).
Qed.

Lemma error_strings_inj (err err' : error_type) :
  error_strings err = error_strings err' -> err = err'.
Proof.
  destruct err, err'; intros H; try reflexivity; discriminate H.
Qed.

(** X18. The message of an argument error can be read back: two calls that
    [parse_args] refuses with the same message have failed with the same
    error at the same position. *)
Theorem error_message_inj (pos pos' : Z) (err err' : error_type) :
  error_message pos err = error_message pos' err' ->
  pos = pos' /\ err = err'.
Proof.
  unfold error_message. intros H.
  apply string_app_inv_head in H.
  change (": " ++ error_strings err)%string
    with (String ":" (String " " (error_strings err))) in H.
  change (": " ++ error_strings err')%string
    with (String ":" (String " " (error_strings err'))) in H.
  apply split_at_colon in H; try apply string_of_int_no_colon.
  destruct H as [Hpos Herr]. injection Herr as Herr.
  split; [exact (string_of_int_inj _ _ Hpos) | exact (error_strings_inj _ _ Herr)].
Qed.

Lemma error_message_inj_witness :
  3 = 3 /\ ERROR_ARG_EMPTY = ERROR_ARG_EMPTY.
Proof.
  exact (error_message_inj 3 3 ERROR_ARG_EMPTY ERROR_ARG_EMPTY eq_refl).
Defined.

(** ** When the arguments parse *)

(** X19. [parse_args] returns without error exactly when there is a matrix
    that passes the checks, at most two outputs are asked, and what follows
    the matrix is a list of whole pairs, each with a character name among
    the four, a value that is not a character array, and a number that the
    range test of its name lets through; the parameters then hold the flags
    of the pairs, added in order to what they held, and the error position
    is untouched. *)
Theorem parse_args_succeeds_iff (nOutputArgs : Z) (inputArgs : list mxArray)
    (pars pars' : InfomapParams) (argposerr pos' : Z) :
  parse_args nOutputArgs inputArgs pars argposerr = Some (NO_ERROR, pars', pos')
  <-> exists (W : mxArray) (rest : list mxArray),
        inputArgs = W :: rest /\ nOutputArgs <= 2
        /\ matrix_refused W = false /\ accepted_pairs rest = true
        /\ pars' = add_option pars (join_flags (map flag_token (pairs_of rest)))
        /\ pos' = argposerr.
Proof.
  rewrite parse_args_cases. split.
  - destruct inputArgs as [|W rest]; [discriminate|].
    destruct (Z.gtb_spec nOutputArgs 2) as [Hout|Hout]; [discriminate|].
    destruct (matrix_refused W) eqn:HW; [discriminate|].
    intros H. exists W, rest.
    pose proof (parse_pairs_no_error _ _ _ _ _ _ H) as Hacc.
    pose proof (parse_pairs_accepted rest [] Hacc 1 pars argposerr) as Hrun.
    rewrite app_nil_r, H in Hrun. cbn [parse_pairs] in Hrun.
    injection Hrun as -> ->.
    repeat split; assumption.
  - intros (W & rest & -> & Hout & HW & Hacc & -> & ->).
    replace (nOutputArgs >? 2) with false
      by (symmetry; rewrite Z.gtb_ltb; apply Z.ltb_ge; lia).
    rewrite HW.
    pose proof (parse_pairs_accepted rest [] Hacc 1 pars argposerr) as Hrun.
    rewrite app_nil_r in Hrun. rewrite Hrun. reflexivity.
Qed.

Lemma parse_args_succeeds_iff_witness :
  parse_args 1 [not_symmetric_2x2; name_arg "y"; value_arg one_half;
                name_arg "Y"; value_arg (d_of 1)] no_options (-1)
  = Some (NO_ERROR, {| options := " -y0.500000  -y1.000000 " |}, -1).
Proof.
  apply (proj2 (parse_args_succeeds_iff 1 _ no_options _ (-1) (-1))).
  exists not_symmetric_2x2,
    [name_arg "y"; value_arg one_half; name_arg "Y"; value_arg (d_of 1)].
  repeat split; try lia; vm_compute; reflexivity.
Defined.

(** * The classification, on the rows of the input *)

(** An array of three columns whose buffer holds the columns of [ts] is read
    back as [ts]. *)
Lemma triplets_columns (W0 : mxArray) (ts : list triplet) :
  mxGetM W0 = Z.of_nat (length ts) -> mxGetPr W0 = columns ts ->
  triplets (mxGetPr W0) (mxGetM W0) = ts.
Proof.
  intros HM Hpr. rewrite HM, Hpr. exact (triplets_triplet_input ts).
Qed.

Lemma invalid_counts (sum1 sum2 M : Z) :
  3 < M ->
  sum1 <> sum2 -> ~ (sum1 = 0 /\ sum2 = M) -> ~ (sum1 = M /\ sum2 = 0) ->
  (sum1 =? sum2) = false
  /\ (sum1 =? 0) && (sum2 =? M) = false
  /\ (sum1 =? M) && (sum2 =? 0) = false.
Proof.
  intros HM H1 H2 H3.
  repeat match goal with
         | |- context [?a =? ?b] => destruct (Z.eqb_spec a b)
         end; cbn [andb]; repeat split; try reflexivity; exfalso; lia.
Qed.

(** C1, as the code has it.  Let [ts] be the rows of a triplet input of more
    than three rows, [sum1] the number of rows of [ts] whose row index is at
    least the column index and [sum2] the number of those whose row index is
    below it.  Equal sums give the symmetric shape, and the rows above the
    diagonal become the edges; [sum1 = 0] with [sum2 = M] gives the upper
    triangular shape and [sum1 = M] with [sum2 = 0] the lower triangular
    one, and every row becomes an edge; in every other case no graph is
    built: the exception whose text says that the matrix is neither
    symmetric nor triangular is thrown, and a call whose arguments have
    parsed ends with that text as its message.  No other outcome exists. *)
Theorem C1_triplet_classification (W0 : mxArray) (ts : list triplet) :
  mxGetN W0 = 3 -> mxGetM W0 = Z.of_nat (length ts) ->
  mxGetPr W0 = columns ts -> (3 < length ts)%nat ->
  let M := mxGetM W0 in
  let sum1 := count_rows row_ge_col ts in
  let sum2 := count_rows row_lt_col ts in
  let flags := classify (mxGetPr W0) M in
  let shape := shape_of_flags flags in
  let above := List.filter row_lt_col ts in
  (sum1 = sum2 ->
   shape = SparseSymmetric /\ isSymmetric flags = true
   /\ make_graph W0
      = inr (GraphC_edges (List.flat_map endpoints above) (map weight_of above)
               (length above)))
  /\ (sum1 = 0 /\ sum2 = M ->
      shape = SparseUpperTriangular /\ isUpperTriangular flags = true
      /\ make_graph W0
         = inr (GraphC_edges (List.flat_map endpoints ts) (map weight_of ts)
                  (length ts)))
  /\ (sum1 = M /\ sum2 = 0 ->
      shape = SparseLowerTriangular /\ isLowerTriangular flags = true
      /\ make_graph W0
         = inr (GraphC_edges (List.flat_map endpoints ts) (map weight_of ts)
                  (length ts)))
  /\ (sum1 <> sum2 /\ ~ (sum1 = 0 /\ sum2 = M) /\ ~ (sum1 = M /\ sum2 = 0) ->
      shape = SparseInvalid
      /\ make_graph W0 = inl (logic_error not_symmetric_nor_triangular)
      /\ forall (infomap : graph_args -> string -> exception + engine_output)
                (nOutputArgs : Z) (args : list mxArray)
                (pars : InfomapParams) (pos : Z),
          parse_args nOutputArgs (W0 :: args) no_options (-1)
          = Some (NO_ERROR, pars, pos) ->
          mexFunction infomap nOutputArgs (W0 :: args)
          = {| printed := [cerr (not_symmetric_nor_triangular
                                 ++ String "010" EmptyString)];
               completed := mexErrMsgTxt not_symmetric_nor_triangular |}).
Proof.
  intros HN HMlen Hpr Hlen. cbv zeta.
  assert (HM : 3 < mxGetM W0) by lia.
  pose proof (triplets_columns W0 ts HMlen Hpr) as Hts.
  pose proof (classify_counts (mxGetPr W0) (mxGetM W0)) as Hflags.
  cbv zeta in Hflags. rewrite Hts in Hflags.
  pose proof (sparse_graph_edges (mxGetPr W0) (mxGetM W0)) as Hedges.
  cbv zeta in Hedges. rewrite Hts in Hedges.
  rewrite (make_graph_triplet W0 HN HM).
  set (sum1 := count_rows row_ge_col ts) in *.
  set (sum2 := count_rows row_lt_col ts) in *.
  assert (Hb1 : 0 <= sum1 <= mxGetM W0)
    by (rewrite HMlen; apply count_rows_bounds).
  split; [|split; [|split]].
  - intros Hsym.
    assert (Hf : classify (mxGetPr W0) (mxGetM W0)
                 = {| isUpperTriangular := false; isLowerTriangular := false;
                      isSymmetric := true |}).
    { rewrite Hflags.
      replace (sum1 =? sum2) with true by (symmetry; apply Z.eqb_eq; exact Hsym).
      replace ((sum1 =? 0) && (sum2 =? mxGetM W0)) with false
        by (symmetry; destruct (Z.eqb_spec sum1 0);
            destruct (Z.eqb_spec sum2 (mxGetM W0)); try reflexivity; lia).
      replace ((sum1 =? mxGetM W0) && (sum2 =? 0)) with false
        by (symmetry; destruct (Z.eqb_spec sum1 (mxGetM W0));
            destruct (Z.eqb_spec sum2 0); try reflexivity; lia).
      reflexivity. }
    rewrite Hedges by (rewrite Hf; discriminate).
    rewrite Hf. repeat split. rewrite length_map. reflexivity.
  - intros [H1 H2].
    assert (Hf : classify (mxGetPr W0) (mxGetM W0)
                 = {| isUpperTriangular := true; isLowerTriangular := false;
                      isSymmetric := false |}).
    { rewrite Hflags, H1, H2, !Z.eqb_refl.
      replace (0 =? mxGetM W0) with false by (symmetry; apply Z.eqb_neq; lia).
      reflexivity. }
    rewrite Hedges by (rewrite Hf; discriminate).
    rewrite Hf. repeat split.
    change (emitted _) with (fun _ : triplet => true).
    rewrite filter_true, length_map. reflexivity.
  - intros [H1 H2].
    assert (Hf : classify (mxGetPr W0) (mxGetM W0)
                 = {| isUpperTriangular := false; isLowerTriangular := true;
                      isSymmetric := false |}).
    { rewrite Hflags, H1, H2, !Z.eqb_refl.
      replace (mxGetM W0 =? 0) with false by (symmetry; apply Z.eqb_neq; lia).
      reflexivity. }
    rewrite Hedges by (rewrite Hf; discriminate).
    rewrite Hf. repeat split.
    change (emitted _) with (fun _ : triplet => true).
    rewrite filter_true, length_map. reflexivity.
  - intros (H1 & H2 & H3).
    destruct (invalid_counts sum1 sum2 (mxGetM W0) HM H1 H2 H3) as (E1 & E2 & E3).
    assert (Hf : classify (mxGetPr W0) (mxGetM W0)
                 = {| isUpperTriangular := false; isLowerTriangular := false;
                      isSymmetric := false |})
      by (rewrite Hflags, E1, E2, E3; reflexivity).
    assert (Hthrow : sparse_graph (mxGetPr W0) (mxGetM W0)
                     = inl (logic_error not_symmetric_nor_triangular))
      by (apply sparse_graph_invalid; rewrite Hf; reflexivity).
    rewrite Hf. repeat split; [exact Hthrow|].
    intros infomap nOutputArgs args pars pos Hparse.
    rewrite (mexFunction_no_error infomap _ _ _ _ _ Hparse).
    unfold try_block. rewrite (make_graph_triplet W0 HN HM), Hthrow. reflexivity.
Qed.

Lemma C1_triplet_classification_witness :
  make_graph (triplet_input unbalanced)
  = inl (logic_error not_symmetric_nor_triangular)
  /\ shape_of_flags (classify (mxGetPr (triplet_input upper_only))
                       (mxGetM (triplet_input upper_only)))
     = SparseUpperTriangular.
Proof.
  split.
  - apply (C1_triplet_classification (triplet_input unbalanced) unbalanced
             eq_refl eq_refl eq_refl ltac:(vm_compute; lia)).
    vm_compute. repeat split; intros H; try discriminate H;
      destruct H as [H _]; discriminate H.
  - apply (C1_triplet_classification (triplet_input upper_only) upper_only
             eq_refl eq_refl eq_refl ltac:(vm_compute; lia)).
    vm_compute. split; reflexivity.
Defined.

(** C1, as it is stated, fails on the rows (1,2), (1,3), (2,1), (2,3): the
    sums are 1 and 3, the input is refused, but not with the invalid-matrix
    error of the parser: [parse_args] returns no error, and the message of
    the call is neither the text of that error nor of its form. *)
Lemma C1_counterexample :
  let W0 := triplet_input unbalanced in
  let run := mexFunction sample_engine 2 [W0] in
  count_rows row_ge_col unbalanced = 1
  /\ count_rows row_lt_col unbalanced = 3
  /\ parse_args 2 [W0] no_options (-1) = Some (NO_ERROR, no_options, -1)
  /\ completed run = mexErrMsgTxt not_symmetric_nor_triangular
  /\ completed run <> mexErrMsgTxt (error_strings ERROR_MATRIX)
  /\ forall pos : Z, completed run <> mexErrMsgTxt (error_message pos ERROR_MATRIX).
Proof.
  intros W0 run.
  assert (Hrun : completed run = mexErrMsgTxt not_symmetric_nor_triangular)
    by (vm_compute; reflexivity).
  split; [vm_compute; reflexivity|].
  split; [vm_compute; reflexivity|].
  split; [vm_compute; reflexivity|].
  split; [exact Hrun|].
  split.
  - rewrite Hrun. discriminate.
  - intros pos. rewrite Hrun. intros H.
    apply (not_symmetric_is_no_argument_error pos ERROR_MATRIX). congruence.
Qed.

(** * The report of an error *)






Lemma matrix_refused_by_kind (W : mxArray) :
  mxIsComplex W = true \/ mxIsEmpty W = true \/ mxIsCell W = true
  \/ mxIsNumeric W = false
  \/ (mxGetM W <> mxGetN W /\ ~ (mxGetN W = 3 /\ 3 < mxGetM W)) ->
  matrix_refused W = true.
Proof.
  unfold matrix_refused. cbv zeta.
  intros [H|[H|[H|[H|[Hsq Htr]]]]]; try rewrite H;
    rewrite ?orb_true_r; try reflexivity.
  destruct (Z.eqb_spec (mxGetN W) 3) as [E3|E3];
    destruct (Z.gtb_spec (mxGetM W) 3) as [G3|G3]; cbn [andb];
    try (exfalso; apply Htr; split; assumption);
    destruct (Z.eqb_spec (mxGetM W) (mxGetN W)); try contradiction; reflexivity.
Qed.



(** * The text of the values in the option string *)




(** * Further properties of the parser *)

(** X1. Whatever the arguments, the position that [parse_args] reports with
    an error is the index of an argument of the call, and it is 0 when the
    call has no argument; a parse without error leaves the position as the
    caller set it and has found the matrix followed by whole pairs. *)
Theorem parse_args_position (nOutputArgs : Z) (inputArgs : list mxArray)
    (pars pars' : InfomapParams) (argposerr pos' : Z) (err : error_type) :
  parse_args nOutputArgs inputArgs pars argposerr = Some (err, pars', pos') ->
  if error_type_eqb err NO_ERROR
  then pos' = argposerr /\ Nat.Odd (length inputArgs)
  else (inputArgs = [] /\ pos' = 0)
       \/ 0 <= pos' < Z.of_nat (length inputArgs).
Proof.
  rewrite parse_args_cases.
  destruct inputArgs as [|W rest].
  - intros [= <- _ <-]. simpl. left. split; reflexivity.
  - destruct (nOutputArgs >? 2).
    { intros [= <- _ <-]. simpl error_type_eqb. cbv iota.
      right. simpl length. lia. }
    destruct (matrix_refused W).
    { intros [= <- _ <-]. simpl error_type_eqb. cbv iota.
      right. simpl length. lia. }
    intros H. apply parse_pairs_position in H.
    destruct (error_type_eqb err NO_ERROR).
    + destruct H as [Hpos [n Hn]]. split; [exact Hpos|].
      exists n. simpl length. lia.
    + destruct H as [_ Hpos]. right. simpl length. lia.
Qed.

Lemma parse_args_position_witness :
  ((@nil mxArray = [] /\ 0 = 0) \/ 0 <= 0 < Z.of_nat (length (@nil mxArray)))
  /\ (([triplet_input path_both_ways; name_arg "N"; value_arg (d_of 5);
        name_arg "p"; value_arg (d_of 7)] = [] /\ 4 = 0)
      \/ 0 <= 4 < Z.of_nat 5).
Proof.
  split.
  - exact (parse_args_position 7 [] no_options no_options (-1) 0
             ERROR_NOT_ENOUGH_ARGS eq_refl).
  - exact (parse_args_position 2
             [triplet_input path_both_ways; name_arg "N"; value_arg (d_of 5);
              name_arg "p"; value_arg (d_of 7)]
             no_options {| options := " -N5.000000 " |} (-1) 4 ERROR_ARG_VALUE
             eq_refl).
Defined.

(** X3. [parse_args] itself never dereferences a null pointer when every
    argument after the matrix is a character array or holds real data: it
    then returns an error code, the parameters and a position. *)
Theorem parse_args_defined (nOutputArgs : Z) (inputArgs : list mxArray)
    (pars : InfomapParams) (argposerr : Z) :
  values_hold_data (tl inputArgs) = true ->
  exists (err : error_type) (pars' : InfomapParams) (pos' : Z),
    parse_args nOutputArgs inputArgs pars argposerr = Some (err, pars', pos').
Proof.
  intros Hdata. rewrite parse_args_cases.
  destruct inputArgs as [|W rest]; [eexists _, _, _; reflexivity|].
  destruct (nOutputArgs >? 2); [eexists _, _, _; reflexivity|].
  destruct (matrix_refused W); [eexists _, _, _; reflexivity|].
  pose proof (parse_pairs_defined rest Hdata 1 pars argposerr) as Hdef.
  destruct (parse_pairs rest 1 pars argposerr) as [[[err pars'] pos']|];
    [|contradiction].
  exists err, pars', pos'. reflexivity.
Qed.

Lemma parse_args_defined_witness :
  exists (err : error_type) (pars' : InfomapParams) (pos' : Z),
    parse_args 2 [triplet_input path_both_ways; name_arg "p"; value_arg Double.nan;
                  value_arg (d_of 1)] no_options (-1)
    = Some (err, pars', pos').
Proof.
  exact (parse_args_defined 2
           [triplet_input path_both_ways; name_arg "p"; value_arg Double.nan;
            value_arg (d_of 1)] no_options (-1) eq_refl).
Defined.

Lemma tolower_upper_of (c : ascii) : tolower (upper_of c) = tolower c.
Proof.
  destruct c as [[] [] [] [] [] [] [] []]; reflexivity.
Qed.

Lemma upper_of_nul (c : ascii) : upper_of c = Ascii.zero -> c = Ascii.zero.
Proof.
  destruct c as [[] [] [] [] [] [] [] []]; intros H; try discriminate H; reflexivity.
Qed.

Lemma case_variant_same_name (s : string) :
  forall t : string, case_variant s t -> same_name s t.
Proof.
  unfold case_variant, same_name.
  induction s as [|c s IH]; intros [|d t] H; simpl in *; try discriminate H.
  - reflexivity.
  - injection H as Hc H.
    rewrite (IH t H), <- (tolower_upper_of c), Hc, tolower_upper_of. reflexivity.
Qed.

Lemma case_variant_not_nul (s : string) :
  forall t : string,
    case_variant s t -> all_chars not_nul t = true -> all_chars not_nul s = true.
Proof.
  unfold case_variant.
  induction s as [|c s IH]; intros [|d t] H Ht; simpl in *; try discriminate H.
  - reflexivity.
  - injection H as Hc H.
    apply andb_prop in Ht. destruct Ht as [Hd Ht].
    rewrite (IH t H Ht), andb_true_r.
    unfold not_nul in *. apply negb_true_iff. apply negb_true_iff in Hd.
    apply Ascii.eqb_neq. apply Ascii.eqb_neq in Hd.
    intros ->. apply Hd. apply upper_of_nul. rewrite <- Hc. reflexivity.
Qed.

(** A name that differs from the name of a parameter at most in the case
    of its letters selects that parameter. *)
Lemma parameter_of_case_variant (s : string) (o : parameter) :
  case_variant s (parameter_name o) -> parameter_of s = Some o.
Proof.
  intros Hvar.
  assert (Hn : all_chars not_nul (parameter_name o) = true) by (destruct o; reflexivity).
  pose proof (case_variant_not_nul s _ Hvar Hn) as Hs.
  pose proof (case_variant_same_name s _ Hvar) as Hsame.
  unfold parameter_of.
  rewrite (strcasecmp_of_same_name s _ "N" Hs Hn eq_refl Hsame).
  rewrite (strcasecmp_of_same_name s _ "p" Hs Hn eq_refl Hsame).
  rewrite (strcasecmp_of_same_name s _ "y" Hs Hn eq_refl Hsame).
  rewrite (strcasecmp_of_same_name s _ "markov-time" Hs Hn eq_refl Hsame).
  destruct o; reflexivity.
Qed.

(** X6. The parser reads the name of a parameter without regard to the
    case of its letters: after any number of accepted pairs, a character
    name that differs from N, p, y or markov-time at most in the case of
    its letters, with a value that is a number, is treated as that
    parameter: the value is checked against its range, and the flag of the
    parameter is added. *)
Theorem names_ignore_case (nOutputArgs : Z) (W : mxArray)
    (pre : list mxArray) (name value : mxArray) (rest : list mxArray)
    (pars : InfomapParams) (argposerr : Z) (v : double) (vs : list double)
    (o : parameter) :
  nOutputArgs <= 2 -> matrix_refused W = false -> accepted_pairs pre = true ->
  mxIsChar name = true -> mxIsChar value = false ->
  mxGetPr value = v :: vs -> Double.is_nan v = false ->
  case_variant (mxArrayToString name) (parameter_name o) ->
  let here := 1 + 2 * Z.of_nat (length (pairs_of pre)) in
  let pars' := add_option pars (join_flags (map flag_token (pairs_of pre))) in
  parse_args nOutputArgs (W :: pre ++ name :: value :: rest) pars argposerr =
    if in_documented_range o v
    then parse_pairs rest (here + 2)
           (add_option pars' (" " ++ (flag_prefix o ++ Double.to_string v) ++ " "))
           argposerr
    else Some (ERROR_ARG_VALUE, pars', here + 1).
Proof.
  intros Hout HW Hpre Hname Hvalue Hdata Hv Hvar here pars'. subst here pars'.
  rewrite (parse_args_pairs _ _ _ _ _ Hout HW).
  rewrite (parse_pairs_accepted pre _ Hpre).
  rewrite (parse_pairs_of_number name value rest _ _ _ v vs Hname Hvalue Hdata Hv).
  rewrite (parameter_of_case_variant _ o Hvar).
  rewrite (here_after_pairs pre Hpre). reflexivity.
Qed.

Lemma names_ignore_case_witness :
  parse_args 2 [triplet_input path_both_ways; name_arg "Markov-TIME";
                value_arg (d_of 5); name_arg "P"; value_arg (d_of 2)]
    no_options (-1)
  = Some (ERROR_ARG_VALUE, {| options := " --markov-time 5.000000 " |}, 4).
Proof.
  exact (names_ignore_case 2 (triplet_input path_both_ways)
           [name_arg "Markov-TIME"; value_arg (d_of 5)] (name_arg "P")
           (value_arg (d_of 2)) [] no_options (-1) (d_of 2) [] par_p
           ltac:(lia) eq_refl eq_refl eq_refl eq_refl eq_refl eq_refl eq_refl).
Defined.

(** X9. [parse_args] and [mexFunction] decide separately whether the first
    argument is a triplet list, and they agree: when [parse_args] has let
    the matrix through (it returns neither the too-many-outputs error nor
    the matrix error), the matrix either has three columns and more than
    three rows and goes through the classification, or is square and is
    handed over as a dense N x N matrix.  An array of three columns and
    fewer than three rows is refused by [parse_args]. *)
Theorem accepted_matrix_graph (nOutputArgs : Z) (W0 : mxArray)
    (args : list mxArray) (pars : InfomapParams) (argposerr : Z) :
  (forall (err : error_type) (pars' : InfomapParams) (pos' : Z),
      parse_args nOutputArgs (W0 :: args) pars argposerr = Some (err, pars', pos') ->
      err <> ERROR_TOO_MANY_OUTPUT_ARGS -> err <> ERROR_MATRIX ->
      (mxGetN W0 = 3 /\ 3 < mxGetM W0
       /\ make_graph W0 = sparse_graph (mxGetPr W0) (mxGetM W0))
      \/ (mxGetM W0 = mxGetN W0
          /\ make_graph W0
             = inr (GraphC_dense (mxGetPr W0) (mxGetN W0) (mxGetN W0))))
  /\ (nOutputArgs <= 2 -> mxGetN W0 = 3 -> mxGetM W0 < 3 ->
      parse_args nOutputArgs (W0 :: args) pars argposerr
      = Some (ERROR_MATRIX, pars, 0)).
Proof.
  rewrite parse_args_cases. split.
  - intros err pars' pos'.
    destruct (nOutputArgs >? 2); [intros [= <- _ _] H; contradiction|].
    destruct (matrix_refused W0) eqn:HW; [intros [= <- _ _] _ H; contradiction|].
    intros _ _ _. unfold matrix_refused in HW. cbv zeta in HW.
    destruct (Z.eqb_spec (mxGetN W0) 3) as [HN|HN];
      destruct (Z.gtb_spec (mxGetM W0) 3) as [HM|HM]; cbn [andb] in HW.
    + left. repeat split; [exact HN | exact HM |].
      apply make_graph_triplet; assumption.
    + right.
      destruct (Z.eqb_spec (mxGetM W0) (mxGetN W0)) as [E|E]; [|discriminate HW].
      split; [exact E | apply square_make_graph; exact E].
    + right.
      destruct (Z.eqb_spec (mxGetM W0) (mxGetN W0)) as [E|E]; [|discriminate HW].
      split; [exact E | apply square_make_graph; exact E].
    + right.
      destruct (Z.eqb_spec (mxGetM W0) (mxGetN W0)) as [E|E]; [|discriminate HW].
      split; [exact E | apply square_make_graph; exact E].
  - intros Hout HN HM.
    replace (nOutputArgs >? 2) with false
      by (symmetry; rewrite Z.gtb_ltb; apply Z.ltb_ge; lia).
    rewrite (matrix_refused_by_kind W0); [reflexivity|].
    right. right. right. right. split; lia.
Qed.

Lemma accepted_matrix_graph_witness :
  make_graph (dense_input 3 [d_of 1; d_of 2; d_of 3; d_of 2; d_of 3; d_of 1;
                             one_half; one_half; one_half])
  = inr (GraphC_dense [d_of 1; d_of 2; d_of 3; d_of 2; d_of 3; d_of 1;
                       one_half; one_half; one_half] 3 3)
  /\ parse_args 2 [with_values (triplet_input [(d_of 1, d_of 2, one_half);
                                               (d_of 2, d_of 1, one_half)]) [];
                   name_arg "unread"] no_options (-1)
     = Some (ERROR_MATRIX, no_options, 0).
Proof.
  split.
  - destruct (proj1 (accepted_matrix_graph 2
                       (dense_input 3 [d_of 1; d_of 2; d_of 3; d_of 2; d_of 3; d_of 1;
                                       one_half; one_half; one_half])
                       [] no_options (-1))
                NO_ERROR no_options (-1) eq_refl
                ltac:(discriminate) ltac:(discriminate))
      as [(_ & H & _)|(_ & H)].
    + vm_compute in H. discriminate H.
    + exact H.
  - apply (proj2 (accepted_matrix_graph 2 _ _ no_options (-1)));
      [lia | reflexivity | vm_compute; reflexivity].
Defined.
